(** * kvx: records with secondary indexes over a transactional key-value store

    A shallow embedding of [src/lib/model.ts] (class [Model] and the factory
    [model]) together with the part of the [Deno.Kv] interface the class
    calls: point reads, plain writes, prefix listing and atomic operations.

    Conventions of the embedding.
    - JavaScript values are the scalars [prim] and flat objects over them;
      numbers are the integer-valued ones, held in [Z].
    - A key handed to the store is a JavaScript array.  A [Deno.KvKeyPart]
      is a [Uint8Array], string, number, bigint or boolean; of these the
      embedding has strings, numbers and booleans.  The store rejects any
      other part (in particular [undefined]) with a [TypeError], and a
      rejected operation changes nothing.
    - [crypto.randomUUID()] is an input of [create]: the identifier drawn.
    - The store is one replica, so both consistency levels read the same
      state; version stamps are not modelled. *)

From Stdlib Require Import ZArith.
From stdpp Require Import gmap strings list fin_maps sorting.

(** ** JavaScript values *)

Inductive prim : Type :=
| PUndefined
| PNull
| PBool (b : bool)
| PNum (n : Z)
| PStr (s : string).

#[global] Instance prim_eq_dec : EqDecision prim.
Proof. solve_decision. Defined.

(** A plain object with scalar fields: [{ name: "Al", age: 3 }]. *)
Abbreviation obj := (gmap string prim).

Inductive jsval : Type :=
| VPrim (p : prim)
| VObj (o : obj).

#[global] Instance jsval_eq_dec : EqDecision jsval.
Proof. solve_decision. Defined.

(** [!x] is [negb (truthy x)]. *)
Definition prim_truthy (p : prim) : bool :=
  match p with
  | PUndefined | PNull => false
  | PBool b => b
  | PNum n => negb (n =? 0)%Z
  | PStr s => negb (String.eqb s EmptyString)
  end.

Definition truthy (v : jsval) : bool :=
  match v with
  | VPrim p => prim_truthy p
  | VObj _ => true
  end.

(** [o[name]] on a plain object: the own field, or [undefined]
    (properties inherited from [Object.prototype] are not modelled). *)
Definition prop (o : obj) (name : string) : prim :=
  default PUndefined (o !! name).

(** [v[name]] on any value.  Scalars are read as having no fields (the
    boxed [length] and character slots of strings are not modelled). *)
Definition js_prop (v : jsval) (name : string) : prim :=
  match v with
  | VObj o => prop o name
  | VPrim _ => PUndefined
  end.

(** [{ ...a, ...b }]: the fields of [b] override those of [a]. *)
Definition spread (a b : obj) : obj := b ∪ a.

(** A promise that has not been awaited.  As a JavaScript value it is an
    object: it is truthy and it has no own enumerable properties, so
    spreading it into an object literal contributes nothing. *)
Record Promise (A : Type) : Type := pending { await : A }.
Arguments pending {A} _.
Arguments await {A} _.

Definition promise_truthy {A} (p : Promise A) : bool := true.
Definition promise_own_props {A} (p : Promise A) : obj := ∅.

(** ** Outcomes *)

Inductive JsError : Type := TypeError.

Inductive Result (A : Type) : Type :=
| Ok (a : A)
| Throw (e : JsError).
Arguments Ok {A} _.
Arguments Throw {A} _.

Definition bind_result {A B} (r : Result A) (k : A → Result B) : Result B :=
  match r with
  | Ok a => k a
  | Throw e => Throw e
  end.

Notation "'let*' x := r 'in' k" := (bind_result r (λ x, k))
  (at level 10, x name, r at level 100, k at level 200).

(** ** The key-value store ([Deno.Kv]) *)

Inductive KvKeyPart : Type :=
| KStr (s : string)
| KNum (n : Z)
| KBool (b : bool).

#[global] Instance KvKeyPart_eq_dec : EqDecision KvKeyPart.
Proof. solve_decision. Defined.

#[global] Instance KvKeyPart_countable : Countable KvKeyPart.
Proof.
  refine (inj_countable'
    (λ p, match p with
          | KStr s => inl s
          | KNum n => inr (inl n)
          | KBool b => inr (inr b)
          end)
    (λ x, match x with
          | inl s => KStr s
          | inr (inl n) => KNum n
          | inr (inr b) => KBool b
          end) _).
  by intros [].
Defined.

Abbreviation KvKey := (list KvKeyPart).
Abbreviation Kv := (gmap (list KvKeyPart) jsval).

Definition key_part (v : jsval) : option KvKeyPart :=
  match v with
  | VPrim (PStr s) => Some (KStr s)
  | VPrim (PNum n) => Some (KNum n)
  | VPrim (PBool b) => Some (KBool b)
  | _ => None
  end.

(** The store's check of a key array: every part must be a key part. *)
Definition encode_key (key : list jsval) : option KvKey :=
  mapM key_part key.

(** Key order: strings before numbers before booleans, then by value;
    keys compare part by part, a proper prefix first. *)
Definition part_leb (a b : KvKeyPart) : bool :=
  match a, b with
  | KStr s, KStr t => String.leb s t
  | KStr _, _ => true
  | KNum _, KStr _ => false
  | KNum n, KNum m => (n <=? m)%Z
  | KNum _, KBool _ => true
  | KBool b, KBool c => implb b c
  | KBool _, _ => false
  end.

Fixpoint key_leb (k1 k2 : KvKey) : bool :=
  match k1, k2 with
  | [], _ => true
  | _ :: _, [] => false
  | a :: k1', b :: k2' =>
      if decide (a = b) then key_leb k1' k2' else part_leb a b
  end.

Record KvEntryMaybe : Type := mkEntryMaybe {
  maybe_key : KvKey;
  maybe_value : option jsval   (* [None] is the [null] of an absent entry *)
}.

Record KvEntry : Type := mkEntry {
  entry_key : KvKey;
  entry_value : jsval
}.

#[global] Instance KvEntry_eq_dec : EqDecision KvEntry.
Proof. solve_decision. Defined.

Record KvCommitResult : Type := mkCommit { ok : bool }.

Inductive KvConsistencyLevel : Type := strong | eventual.

Record KvListOptions : Type := mkListOptions {
  limit : option nat;
  reverse : bool
}.

(** [kv.get(key, { consistency })]. *)
Definition kv_get (kv : Kv) (key : list jsval)
    (consistency : option KvConsistencyLevel) : Result KvEntryMaybe :=
  match encode_key key with
  | Some k => Ok (mkEntryMaybe k (kv !! k))
  | None => Throw TypeError
  end.

(** [kv.set(key, value)]. *)
Definition kv_set (kv : Kv) (key : list jsval) (value : jsval)
    : Result KvCommitResult * Kv :=
  match encode_key key with
  | Some k => (Ok (mkCommit true), <[k := value]> kv)
  | None => (Throw TypeError, kv)
  end.

(** Atomic operations: [kv.atomic()] then chained [.set] / [.delete],
    kept in the order issued, then [.commit()]. *)
Inductive KvMutation : Type :=
| MSet (key : list jsval) (value : jsval)
| MDelete (key : list jsval).

Abbreviation AtomicOperation := (list KvMutation).

Definition atomic : AtomicOperation := [].
Definition op_set (op : AtomicOperation) (key : list jsval) (value : jsval)
    : AtomicOperation := op ++ [MSet key value].
Definition op_delete (op : AtomicOperation) (key : list jsval)
    : AtomicOperation := op ++ [MDelete key].

Inductive KvWrite : Type :=
| WSet (k : KvKey) (value : jsval)
| WDelete (k : KvKey).

Definition encode_mutation (mu : KvMutation) : option KvWrite :=
  match mu with
  | MSet key value => k ← encode_key key; Some (WSet k value)
  | MDelete key => k ← encode_key key; Some (WDelete k)
  end.

Definition apply_write (kv : Kv) (w : KvWrite) : Kv :=
  match w with
  | WSet k value => <[k := value]> kv
  | WDelete k => base.delete k kv
  end.

(** [op.commit()]: all keys are checked first; if one is rejected nothing
    is written, otherwise every mutation is applied, in order. *)
Definition commit (kv : Kv) (op : AtomicOperation)
    : Result KvCommitResult * Kv :=
  match mapM encode_mutation op with
  | Some ws => (Ok (mkCommit true), foldl apply_write kv ws)
  | None => (Throw TypeError, kv)
  end.

(** [k] extends [prefix] by at least one part. *)
Definition has_prefix (prefix k : KvKey) : bool :=
  bool_decide (prefix `prefix_of` k) && negb (bool_decide (k = prefix)).

Definition entry_le (e1 e2 : KvEntry) : Prop :=
  key_leb (entry_key e1) (entry_key e2) = true.

#[global] Instance entry_le_dec e1 e2 : Decision (entry_le e1 e2).
Proof. unfold entry_le. apply _. Defined.

(** [kv.list({ prefix }, options)], as the sequence the iterator yields. *)
Definition kv_list (kv : Kv) (prefix : list jsval)
    (options : option KvListOptions) : Result (list KvEntry) :=
  match encode_key prefix with
  | None => Throw TypeError
  | Some p =>
      let hits :=
        filter (λ e, has_prefix p (entry_key e) = true)
               ((λ kx, mkEntry kx.1 kx.2) <$> map_to_list kv) in
      let ordered := merge_sort entry_le hits in
      let ordered :=
        if default false (reverse <$> options) then rev ordered
        else ordered in
      Ok (match options ≫= limit with
          | Some n => take n ordered
          | None => ordered
          end)
  end.

(** ** The model class *)

Module Model.

(** [new Model(key, schema, indexes)].  The schema is stored by the
    constructor and read by no method, so it is left out. *)
Record t : Type := model {
  key : string;
  indexes : list string
}.

(** The template literal [`${this.key}_by_${index}`]. *)
Definition index_name (this : t) (index : string) : string :=
  key this +:+ "_by_" +:+ index.

Definition str (s : string) : jsval := VPrim (PStr s).

(** The atomic operation [create] has built when it reaches [commit]:
    the primary [set], then the loop over [this.indexes]. *)
Definition create_op (this : t) (value : obj) (id : string)
    : AtomicOperation :=
  let key := [str (key this); str id] in
  let data := <["id" := PStr id]> value in
  let op := op_set atomic key (VObj data) in
  foldl (λ op index,
           let indexKey :=
             [str (index_name this index); VPrim (prop value index)] in
           op_set op indexKey (str id))
        op (indexes this).

(** [create(kv, value)], with [id] the identifier [crypto.randomUUID()]
    returned. *)
Definition create (this : t) (kv : Kv) (value : obj) (id : string)
    : Result KvCommitResult * Kv :=
  commit kv (create_op this value id).

(** [find(kv, id, consistency)]. *)
Definition find (this : t) (kv : Kv) (id : string)
    (consistency : option KvConsistencyLevel) : Result KvEntryMaybe :=
  let key := [str (key this); str id] in
  kv_get kv key consistency.

(** [findAll(kv, options)]. *)
Definition findAll (this : t) (kv : Kv) (options : option KvListOptions)
    : Result (list KvEntry) :=
  kv_list kv [str (key this)] options.

(** [findByIndex(kv, index, value, consistency)]; [Ok None] is the bare
    [return] (the caller receives [undefined]). *)
Definition findByIndex (this : t) (kv : Kv) (index : string) (value : prim)
    (consistency : option KvConsistencyLevel)
    : Result (option KvEntryMaybe) :=
  let indexKey := [str (index_name this index); VPrim value] in
  let* id := kv_get kv indexKey consistency in
  match maybe_value id with
  | None => Ok None
  | Some id_value =>
      if negb (truthy id_value) then Ok None
      else
        let* entry := kv_get kv [str (key this); id_value] consistency in
        Ok (Some entry)
  end.

(** [update(kv, id, value)].  The read is not awaited: [data] is the
    promise itself, which is what the test and the spread then see. *)
Definition update (this : t) (kv : Kv) (id : string) (value : obj)
    : Result (option KvCommitResult) * Kv :=
  let key := [str (key this); str id] in
  let data := pending (kv_get kv key None) in
  if negb (promise_truthy data) then (Ok None, kv)
  else
    let newData := spread (promise_own_props data) value in
    let '(r, kv') := kv_set kv key (VObj newData) in
    (let* c := r in Ok (Some c), kv').

(** The atomic operation [delete] has built when it reaches [commit],
    for the value [data.value] it read. *)
Definition delete_op (this : t) (id : string) (data_value : jsval)
    : AtomicOperation :=
  let key := [str (key this); str id] in
  let op := op_delete atomic key in
  foldl (λ op index,
           let indexKey :=
             [str (index_name this index);
              VPrim (js_prop data_value index)] in
           op_delete op indexKey)
        op (indexes this).

(** [delete(kv, id)]. *)
Definition delete (this : t) (kv : Kv) (id : string)
    : Result (option KvCommitResult) * Kv :=
  let key := [str (key this); str id] in
  match kv_get kv key None with
  | Throw e => (Throw e, kv)
  | Ok data =>
      match maybe_value data with
      | None => (Ok None, kv)
      | Some data_value =>
          if negb (truthy data_value) then (Ok None, kv)
          else
            let '(r, kv') := commit kv (delete_op this id data_value) in
            (let* c := r in Ok (Some c), kv')
      end
  end.

End Model.

(** ** Sequences of calls *)

Inductive Call : Type :=
| Create (value : obj) (id : string)
| Update (id : string) (value : obj)
| Delete (id : string).

(** The store a call leaves behind; its result is dropped. *)
Definition step (this : Model.t) (kv : Kv) (c : Call) : Kv :=
  match c with
  | Create value id => (Model.create this kv value id).2
  | Update id value => (Model.update this kv id value).2
  | Delete id => (Model.delete this kv id).2
  end.

Definition run (this : Model.t) (kv : Kv) (calls : list Call) : Kv :=
  foldl (step this) kv calls.

(** ** Vocabulary of the properties *)

Definition primary_key (this : Model.t) (id : string) : KvKey :=
  [KStr (Model.key this); KStr id].

Definition index_key (this : Model.t) (index : string) (part : KvKeyPart)
    : KvKey :=
  [KStr (Model.index_name this index); part].

(** The record as [create] stores it: [{ ...value, id }]. *)
Definition with_id (value : obj) (id : string) : obj :=
  <["id" := PStr id]> value.

(** [r] is the live record of identifier [id]. *)
Definition live (this : Model.t) (kv : Kv) (id : string) (r : obj) : Prop :=
  kv !! primary_key this id = Some (VObj r).

(** The value [r] holds at [index] is [part], a value the store takes as
    a key part. *)
Definition holds (r : obj) (index : string) (part : KvKeyPart) : Prop :=
  key_part (VPrim (prop r index)) = Some part.

(** Every declared indexed field of [r] holds a key part. *)
Definition indexable (this : Model.t) (r : obj) : Prop :=
  Forall (λ index, is_Some (key_part (VPrim (prop r index))))
         (Model.indexes this).

(** The index keys of a record, or [None] when a field is no key part. *)
Definition index_keys (this : Model.t) (field : string → prim)
    : option (list KvKey) :=
  mapM (λ index, index_key this index <$> key_part (VPrim (field index)))
       (Model.indexes this).

(** Every live record is found under each of its indexed values. *)
Definition index_complete (this : Model.t) (kv : Kv) : Prop :=
  ∀ id r index part,
    live this kv id r → index ∈ Model.indexes this → holds r index part →
    kv !! index_key this index part = Some (Model.str id).

(** Every index entry names a live record that holds the entry's value. *)
Definition index_sound (this : Model.t) (kv : Kv) : Prop :=
  ∀ index part x,
    index ∈ Model.indexes this → kv !! index_key this index part = Some x →
    ∃ id r, x = Model.str id ∧ live this kv id r ∧ holds r index part.

Definition index_consistent (this : Model.t) (kv : Kv) : Prop :=
  index_complete this kv ∧ index_sound this kv.

(** A [create] that draws an unused identifier and brings indexed values
    under which the store has no index entry. *)
Definition fresh_create (this : Model.t) (kv : Kv) (value : obj)
    (id : string) : Prop :=
  kv !! primary_key this id = None ∧
  ∀ index part,
    index ∈ Model.indexes this → holds value index part →
    kv !! index_key this index part = None.


(** No entry of the store lies under the collection's prefix. *)
Definition collection_empty (this : Model.t) (kv : Kv) : Prop :=
  ∀ k, has_prefix [KStr (Model.key this)] k = true → kv !! k = None.

(** The entry [findAll] yields for a record created from [c.2] under the
    identifier [c.1]. *)
Definition record_entry (this : Model.t) (c : string * obj) : KvEntry :=
  mkEntry (primary_key this c.1) (VObj (with_id c.2 c.1)).

(** The entries under the collection's prefix are exactly the records
    created from the pairs of [cs] (identifier drawn, value given). *)
Definition collection_is (this : Model.t) (kv : Kv) (cs : list (string * obj))
    : Prop :=
  ∀ k x,
    has_prefix [KStr (Model.key this)] k = true →
    kv !! k = Some x ↔ ∃ c, c ∈ cs ∧ k = primary_key this c.1
                            ∧ x = VObj (with_id c.2 c.1).

Definition creates (cs : list (string * obj)) : list Call :=
  (λ c, Create c.2 c.1) <$> cs.

Definition deletes (ds : list string) : list Call := Delete <$> ds.

(** ** Sample data *)

Definition user : Model.t := Model.model "user" ["email"].
Definition plain : Model.t := Model.model "item" [].

Definition al : obj := {[ "name" := PStr "Al"; "email" := PStr "x@y.com" ]}.
Definition bo : obj := {[ "name" := PStr "Bo"; "email" := PStr "x@y.com" ]}.
Definition cy : obj := {[ "name" := PStr "Cy"; "email" := PStr "c@y.com" ]}.
Definition anon : obj := {[ "name" := PStr "No" ]}.
Definition ab : obj := {[ "a" := PNum 1; "b" := PNum 2 ]}.
Definition a9 : obj := {[ "a" := PNum 9 ]}.
Definition new_email : obj := {[ "email" := PStr "z@y.com" ]}.

Definition kv_empty : Kv := ∅.

(** An index entry whose target was never written. *)
Definition kv_dangling : Kv :=
  {[ index_key user "email" (KStr "x@y.com") := Model.str "id-9" ]}.

(** A record stored without its indexed field. *)
Definition kv_anon : Kv :=
  {[ primary_key user "id-1" := VObj (with_id anon "id-1") ]}.

(** ** The factory *)

(** [model(key, schema, indexes?)]: [new Model(key, schema, indexes)],
    where the constructor's default turns a missing [indexes] into [[]]. *)
Definition model (key : string) (indexes : option (list string)) : Model.t :=
  Model.model key (default [] indexes).

(** More sample data: a model that indexes the field [id], a model whose
    key is the name of [user]'s index family, and a value with an [id]
    field of its own. *)
Definition keyed : Model.t := Model.model "user" ["id"].
Definition shadow : Model.t := Model.model "user_by_email" [].
Definition own_id : obj := {[ "name" := PStr "Al"; "id" := PStr "u-1" ]}.

(** * Properties *)

(** ** Keys *)

Lemma string_length_app (s1 s2 : string) :
  String.length (s1 +:+ s2) = String.length s1 + String.length s2.
Proof. induction s1 as [|a s1 IH]; simpl; [done | by rewrite IH]. Qed.

Lemma index_name_ne_key this index :
  Model.index_name this index ≠ Model.key this.
Proof.
  unfold Model.index_name. intros E.
  apply (f_equal String.length) in E.
  rewrite !string_length_app in E. simpl in E. lia.
Qed.

Lemma index_name_inj this index1 index2 :
  Model.index_name this index1 = Model.index_name this index2 →
  index1 = index2.
Proof.
  unfold Model.index_name. intros E.
  by do 2 apply String.app_inj in E.
Qed.

Lemma index_key_ne_primary this index part id :
  index_key this index part ≠ primary_key this id.
Proof.
  unfold index_key, primary_key. intros E.
  injection E as E _. by apply index_name_ne_key in E.
Qed.

Lemma index_key_inj this index1 part1 index2 part2 :
  index_key this index1 part1 = index_key this index2 part2 →
  index1 = index2 ∧ part1 = part2.
Proof.
  unfold index_key. intros E. injection E as E1 E2.
  split; [by eapply index_name_inj | done].
Qed.

Lemma primary_key_inj this id1 id2 :
  primary_key this id1 = primary_key this id2 → id1 = id2.
Proof. unfold primary_key. by intros [= ->]. Qed.

Lemma encode_primary this id :
  encode_key [Model.str (Model.key this); Model.str id]
  = Some (primary_key this id).
Proof. reflexivity. Qed.

Lemma encode_index this index p :
  encode_key [Model.str (Model.index_name this index); VPrim p]
  = index_key this index <$> key_part (VPrim p).
Proof. by destruct p. Qed.

Lemma has_prefix_primary this id :
  has_prefix [KStr (Model.key this)] (primary_key this id) = true.
Proof.
  unfold has_prefix, primary_key.
  rewrite andb_true_iff, negb_true_iff, bool_decide_eq_true,
    bool_decide_eq_false.
  split; [by exists [KStr id] | done].
Qed.

Lemma has_prefix_index this index part :
  has_prefix [KStr (Model.key this)] (index_key this index part) = false.
Proof.
  unfold has_prefix, index_key.
  rewrite andb_false_iff, bool_decide_eq_false. left.
  intros [k E]. injection E as E _. by apply index_name_ne_key in E.
Qed.

(** ** Atomic operations *)

Lemma foldl_snoc_map {A B} (g : A → B) (l : list A) (acc : list B) :
  foldl (λ op x, op ++ [g x]) acc l = acc ++ (g <$> l).
Proof.
  revert acc. induction l as [|x l IH]; intros acc; simpl.
  - by rewrite app_nil_r.
  - by rewrite IH, <- app_assoc.
Qed.

Lemma create_op_unfold this value id :
  Model.create_op this value id
  = MSet [Model.str (Model.key this); Model.str id] (VObj (with_id value id))
    :: ((λ index,
           MSet [Model.str (Model.index_name this index);
                 VPrim (prop value index)] (Model.str id))
        <$> Model.indexes this).
Proof.
  unfold Model.create_op, op_set, atomic.
  by rewrite (foldl_snoc_map
    (λ index, MSet [Model.str (Model.index_name this index);
                    VPrim (prop value index)] (Model.str id))).
Qed.

Lemma delete_op_unfold this id data_value :
  Model.delete_op this id data_value
  = MDelete [Model.str (Model.key this); Model.str id]
    :: ((λ index,
           MDelete [Model.str (Model.index_name this index);
                    VPrim (js_prop data_value index)])
        <$> Model.indexes this).
Proof.
  unfold Model.delete_op, op_delete, atomic.
  by rewrite (foldl_snoc_map
    (λ index, MDelete [Model.str (Model.index_name this index);
                       VPrim (js_prop data_value index)])).
Qed.

Lemma mapM_cons {A B} (f : A → option B) (x : A) (l : list A) :
  mapM f (x :: l) = y ← f x; k ← mapM f l; Some (y :: k).
Proof. reflexivity. Qed.

Lemma mapM_fmap_compose {A B C} (g : A → B) (f : B → option C) (l : list A) :
  mapM f (g <$> l) = mapM (f ∘ g) l.
Proof.
  induction l as [|x l IH]; [done|].
  rewrite fmap_cons, !mapM_cons, IH. done.
Qed.

Lemma mapM_fmap_result {A B C} (f : A → option B) (h : B → C) (l : list A) :
  mapM (λ x, h <$> f x) l = fmap h <$> mapM f l.
Proof.
  induction l as [|x l IH]; [done|].
  rewrite !mapM_cons, IH. destruct (f x); simpl; [|done].
  by destruct (mapM f l).
Qed.

Lemma foldl_apply_sets (x : jsval) (ks : list KvKey) (kv : Kv) :
  foldl apply_write kv ((λ k, WSet k x) <$> ks)
  = foldl (λ kv k, <[k := x]> kv) kv ks.
Proof. revert kv. induction ks as [|k ks IH]; intros kv; simpl; auto. Qed.

Lemma foldl_apply_deletes (ks : list KvKey) (kv : Kv) :
  foldl apply_write kv (WDelete <$> ks)
  = foldl (λ kv k, base.delete k kv) kv ks.
Proof. revert kv. induction ks as [|k ks IH]; intros kv; simpl; auto. Qed.

Lemma lookup_foldl_insert (x : jsval) (ks : list KvKey) (kv : Kv) k :
  foldl (λ kv k, <[k := x]> kv) kv ks !! k
  = if decide (k ∈ ks) then Some x else kv !! k.
Proof.
  revert kv. induction ks as [|k' ks IH]; intros kv; cbn [foldl].
  - rewrite decide_False; [done | apply not_elem_of_nil].
  - rewrite IH. destruct (decide (k ∈ ks)) as [Hin|Hin].
    + rewrite decide_True; [done | by right].
    + destruct (decide (k = k')) as [->|Hne].
      * rewrite lookup_insert_eq, decide_True; [done | by left].
      * rewrite lookup_insert_ne by done.
        rewrite decide_False; [done|]. intros [?|?]%elem_of_cons; tauto.
Qed.

Lemma lookup_foldl_delete (ks : list KvKey) (kv : Kv) k :
  foldl (λ kv k, base.delete k kv) kv ks !! k
  = if decide (k ∈ ks) then None else kv !! k.
Proof.
  revert kv. induction ks as [|k' ks IH]; intros kv; cbn [foldl].
  - rewrite decide_False; [done | apply not_elem_of_nil].
  - rewrite IH. destruct (decide (k ∈ ks)) as [Hin|Hin].
    + rewrite decide_True; [done | by right].
    + destruct (decide (k = k')) as [->|Hne].
      * rewrite lookup_delete_eq, decide_True; [done | by left].
      * rewrite lookup_delete_ne by done.
        rewrite decide_False; [done|]. intros [?|?]%elem_of_cons; tauto.
Qed.

Lemma encode_index_sets this (field : string → prim) (x : jsval) :
  mapM encode_mutation
    ((λ index, MSet [Model.str (Model.index_name this index);
                     VPrim (field index)] x) <$> Model.indexes this)
  = fmap (λ k, WSet k x) <$> index_keys this field.
Proof.
  unfold index_keys. rewrite <- mapM_fmap_result, mapM_fmap_compose.
  apply mapM_ext. intros index. cbn [compose encode_mutation].
  rewrite encode_index. by destruct (key_part (VPrim (field index))).
Qed.

Lemma encode_index_deletes this (field : string → prim) :
  mapM encode_mutation
    ((λ index, MDelete [Model.str (Model.index_name this index);
                        VPrim (field index)]) <$> Model.indexes this)
  = fmap WDelete <$> index_keys this field.
Proof.
  unfold index_keys. rewrite <- mapM_fmap_result, mapM_fmap_compose.
  apply mapM_ext. intros index. cbn [compose encode_mutation].
  rewrite encode_index. by destruct (key_part (VPrim (field index))).
Qed.

Lemma index_keys_is_Some this (field : string → prim) :
  is_Some (index_keys this field)
  ↔ Forall (λ index, is_Some (key_part (VPrim (field index))))
           (Model.indexes this).
Proof.
  unfold index_keys. rewrite mapM_is_Some. apply Forall_proper; [|done].
  intros index. cbn [compose]. by rewrite fmap_is_Some.
Qed.

Lemma elem_of_index_keys this (field : string → prim) ks :
  index_keys this field = Some ks →
  ∀ k, k ∈ ks ↔ ∃ index part,
      index ∈ Model.indexes this ∧
      key_part (VPrim (field index)) = Some part ∧
      k = index_key this index part.
Proof.
  unfold index_keys. intros H%mapM_Some_1 k.
  induction H as [|index k' l ks' Hk _ IH].
  - split; [by intros ?%elem_of_nil|].
    by intros (? & ? & ?%elem_of_nil & _).
  - apply fmap_Some in Hk as (part & Hpart & ->).
    rewrite elem_of_cons, IH. split.
    + intros [->|(i & p & ? & ? & ?)].
      * exists index, part. split_and!; [by left | done | done].
      * exists i, p. split_and!; [by right | done | done].
    + intros (i & p & [->|?]%elem_of_cons & Hp & ->).
      * left. congruence.
      * right. eauto.
Qed.

(** [create] as one step on the store. *)
Lemma create_eq this kv value id :
  Model.create this kv value id
  = match index_keys this (prop value) with
    | Some ks =>
        (Ok (mkCommit true),
         foldl (λ kv k, <[k := Model.str id]> kv)
               (<[primary_key this id := VObj (with_id value id)]> kv) ks)
    | None => (Throw TypeError, kv)
    end.
Proof.
  unfold Model.create, commit.
  rewrite create_op_unfold, mapM_cons, encode_index_sets.
  cbn [encode_mutation]. rewrite encode_primary.
  destruct (index_keys this (prop value)) as [ks|]; [|done].
  simpl. by rewrite foldl_apply_sets.
Qed.

(** [delete] as one step on the store. *)
Lemma delete_eq this kv id :
  Model.delete this kv id
  = match kv !! primary_key this id with
    | None => (Ok None, kv)
    | Some data_value =>
        if truthy data_value then
          match index_keys this (js_prop data_value) with
          | Some ks =>
              (Ok (Some (mkCommit true)),
               foldl (λ kv k, base.delete k kv)
                     (base.delete (primary_key this id) kv) ks)
          | None => (Throw TypeError, kv)
          end
        else (Ok None, kv)
    end.
Proof.
  unfold Model.delete, kv_get. rewrite encode_primary.
  cbn [maybe_value].
  destruct (kv !! primary_key this id) as [data_value|]; [|done].
  destruct (truthy data_value); [|done]. cbn [negb].
  unfold commit.
  rewrite delete_op_unfold, mapM_cons, encode_index_deletes.
  cbn [encode_mutation]. rewrite encode_primary.
  destruct (index_keys this (js_prop data_value)) as [ks|]; [|done].
  simpl. by rewrite foldl_apply_deletes.
Qed.

(** [update] as one step on the store: a plain write of the partial
    value under the primary key, whatever the store holds. *)
Lemma update_eq this kv id value :
  Model.update this kv id value
  = (Ok (Some (mkCommit true)), <[primary_key this id := VObj value]> kv).
Proof.
  unfold Model.update, kv_set. rewrite encode_primary.
  cbn [promise_truthy negb]. unfold spread, promise_own_props.
  by rewrite (right_id_L ∅ (∪)).
Qed.

Lemma find_eq this kv id consistency :
  Model.find this kv id consistency
  = Ok (mkEntryMaybe (primary_key this id) (kv !! primary_key this id)).
Proof. unfold Model.find, kv_get. by rewrite encode_primary. Qed.

Lemma create_lookup this kv value id ks k :
  index_keys this (prop value) = Some ks →
  (Model.create this kv value id).2 !! k
  = if decide (k ∈ ks) then Some (Model.str id)
    else if decide (k = primary_key this id)
         then Some (VObj (with_id value id))
         else kv !! k.
Proof.
  intros Hks. rewrite create_eq, Hks. cbn [snd].
  rewrite lookup_foldl_insert. case_decide; [done|].
  case_decide as Hk; [subst k; apply lookup_insert_eq|].
  by rewrite lookup_insert_ne.
Qed.

Lemma delete_lookup this kv id data_value ks k :
  kv !! primary_key this id = Some data_value →
  truthy data_value = true →
  index_keys this (js_prop data_value) = Some ks →
  (Model.delete this kv id).2 !! k
  = if decide (k ∈ ks) then None
    else if decide (k = primary_key this id) then None else kv !! k.
Proof.
  intros Hpk Ht Hks. rewrite delete_eq, Hpk, Ht, Hks. cbn [snd].
  rewrite lookup_foldl_delete. case_decide; [done|].
  case_decide as Hk; [subst k; apply lookup_delete_eq|].
  by rewrite lookup_delete_ne.
Qed.

Lemma findByIndex_eq this kv index value consistency :
  Model.findByIndex this kv index value consistency
  = match key_part (VPrim value) with
    | None => Throw TypeError
    | Some part =>
        match kv !! index_key this index part with
        | None => Ok None
        | Some id_value =>
            if truthy id_value then
              match key_part id_value with
              | Some p =>
                  Ok (Some (mkEntryMaybe [KStr (Model.key this); p]
                                         (kv !! [KStr (Model.key this); p])))
              | None => Throw TypeError
              end
            else Ok None
        end
    end.
Proof.
  unfold Model.findByIndex, kv_get. rewrite encode_index.
  destruct (key_part (VPrim value)) as [part|]; [|done].
  cbn [fmap option_fmap option_map bind_result maybe_value].
  destruct (kv !! index_key this index part) as [id_value|]; [|done].
  destruct (truthy id_value); [|done]. cbn [negb].
  unfold encode_key. rewrite mapM_cons. cbn [key_part Model.str mbind option_bind].
  rewrite mapM_cons.
  by destruct (key_part id_value).
Qed.

Lemma indexable_keys this (r : obj) :
  indexable this r → ∃ ks, index_keys this (prop r) = Some ks.
Proof. intros H. by apply index_keys_is_Some. Qed.

Lemma not_indexable_keys this (r : obj) index :
  index ∈ Model.indexes this → key_part (VPrim (prop r index)) = None →
  index_keys this (prop r) = None.
Proof.
  intros Hin Hnone. apply eq_None_not_Some. rewrite index_keys_is_Some.
  rewrite Forall_forall. intros H. specialize (H _ Hin).
  rewrite Hnone in H. by destruct H.
Qed.

(** ** create *)

(** C6. [create] commits exactly one atomic operation: the primary [set]
    under [(key, id)] of the value merged with [{ id }], followed by one
    index [set] under [(key + "_by_" + field, value[field])] of the
    identifier for each declared indexed field.  When every indexed field
    of the value holds a key part the commit lands whole: the primary
    entry and every index entry are in the store and nothing else has
    changed.  Otherwise it does not land at all: the store's [TypeError],
    the store unchanged. *)
Theorem create_key_layout_atomic this kv value id :
  Model.create this kv value id
  = commit kv
      (MSet [VPrim (PStr (Model.key this)); VPrim (PStr id)]
            (VObj (<["id" := PStr id]> value))
       :: ((λ index,
              MSet [VPrim (PStr (Model.key this +:+ "_by_" +:+ index));
                    VPrim (prop value index)] (VPrim (PStr id)))
           <$> Model.indexes this))
  ∧ (indexable this value →
     (Model.create this kv value id).1 = Ok (mkCommit true)
     ∧ (Model.create this kv value id).2 !! [KStr (Model.key this); KStr id]
       = Some (VObj (<["id" := PStr id]> value))
     ∧ (∀ index, index ∈ Model.indexes this →
          ∃ part, key_part (VPrim (prop value index)) = Some part
            ∧ (Model.create this kv value id).2
                !! [KStr (Model.key this +:+ "_by_" +:+ index); part]
              = Some (VPrim (PStr id)))
     ∧ (∀ k, k ≠ [KStr (Model.key this); KStr id] →
          (∀ index part, index ∈ Model.indexes this →
             key_part (VPrim (prop value index)) = Some part →
             k ≠ [KStr (Model.key this +:+ "_by_" +:+ index); part]) →
          (Model.create this kv value id).2 !! k = kv !! k))
  ∧ (¬ indexable this value →
     Model.create this kv value id = (Throw TypeError, kv)).
Proof.
  split_and!.
  - unfold Model.create. by rewrite create_op_unfold.
  - intros Hix. destruct (indexable_keys _ _ Hix) as [ks Hks].
    pose proof (elem_of_index_keys _ _ _ Hks) as Hin.
    pose proof (create_lookup this kv value id ks) as Hlook.
    split_and!.
    + by rewrite create_eq, Hks.
    + change [KStr (Model.key this); KStr id] with (primary_key this id).
      rewrite (Hlook _ Hks).
      rewrite decide_False, decide_True; [done..|].
      intros (index & part & _ & _ & E)%Hin.
      symmetry in E. by apply index_key_ne_primary in E.
    + intros index Hindex.
      unfold indexable in Hix. rewrite Forall_forall in Hix.
      destruct (Hix _ Hindex) as [part Hpart].
      exists part. split; [done|].
      change [KStr (Model.key this +:+ "_by_" +:+ index); part]
        with (index_key this index part).
      rewrite (Hlook _ Hks), decide_True; [done|].
      apply Hin. eauto.
    + intros k Hpk Hother. rewrite (Hlook _ Hks).
      rewrite !decide_False; [done..|].
      intros (index & part & ? & ? & ->)%Hin. by eapply Hother.
  - intros Hnot. rewrite create_eq.
    destruct (index_keys this (prop value)) as [ks|] eqn:Hks; [|done].
    destruct Hnot. apply index_keys_is_Some. by exists ks.
Qed.

Lemma create_key_layout_atomic_witness :
  indexable user al
  ∧ ((Model.create user kv_empty al "id-1").1 = Ok (mkCommit true)
     ∧ (Model.create user kv_empty al "id-1").2
         !! [KStr (Model.key user); KStr "id-1"]
       = Some (VObj (<["id" := PStr "id-1"]> al))
     ∧ (∀ index, index ∈ Model.indexes user →
          ∃ part, key_part (VPrim (prop al index)) = Some part
            ∧ (Model.create user kv_empty al "id-1").2
                !! [KStr (Model.key user +:+ "_by_" +:+ index); part]
              = Some (VPrim (PStr "id-1")))
     ∧ (∀ k, k ≠ [KStr (Model.key user); KStr "id-1"] →
          (∀ index part, index ∈ Model.indexes user →
             key_part (VPrim (prop al index)) = Some part →
             k ≠ [KStr (Model.key user +:+ "_by_" +:+ index); part]) →
          (Model.create user kv_empty al "id-1").2 !! k = kv_empty !! k))
  ∧ ¬ indexable user anon
  ∧ Model.create user kv_empty anon "id-1" = (Throw TypeError, kv_empty).
Proof.
  assert (indexable user al) as H1.
  { apply Forall_cons. split; [by eexists | apply Forall_nil_2]. }
  assert (¬ indexable user anon) as H2.
  { intros [[part Hpart] _]%Forall_cons.
    vm_compute in Hpart. discriminate Hpart. }
  split; [exact H1|]. split; [|split; [exact H2|]].
  - exact (proj1 (proj2 (create_key_layout_atomic user kv_empty al "id-1"))
             H1).
  - exact (proj2 (proj2 (create_key_layout_atomic user kv_empty anon "id-1"))
             H2).
Defined.

(** C5 fails as stated: what [create] returns is the store's commit
    result, which is the same whichever identifier was drawn, so it does
    not carry the record or its identifier.  Two runs on the same input
    that draw different identifiers return equal results, yet only the
    first stores a record under the first identifier. *)
Lemma create_result_omits_identifier :
  (Model.create user kv_empty al "id-1").1 = Ok (mkCommit true)
  ∧ (Model.create user kv_empty al "id-1").1
    = (Model.create user kv_empty al "id-2").1
  ∧ Model.find user (Model.create user kv_empty al "id-1").2 "id-1" None
    = Ok (mkEntryMaybe (primary_key user "id-1")
                       (Some (VObj (with_id al "id-1"))))
  ∧ Model.find user (Model.create user kv_empty al "id-2").2 "id-1" None
    = Ok (mkEntryMaybe (primary_key user "id-1") None).
Proof. split_and!; vm_compute; reflexivity. Qed.

(** C5, amended.  For every value whose indexed fields all hold key
    parts and every identifier drawn, [create] commits, and [find] on
    that identifier then returns the entry whose value is the input
    merged with [{ id }]. *)
Theorem create_then_find this kv value id consistency :
  indexable this value →
  ∃ kv',
    Model.create this kv value id = (Ok (mkCommit true), kv')
    ∧ Model.find this kv' id consistency
      = Ok (mkEntryMaybe (primary_key this id)
                         (Some (VObj (with_id value id)))).
Proof.
  intros [ks Hks]%indexable_keys.
  exists (Model.create this kv value id).2. split.
  - by rewrite create_eq, Hks.
  - rewrite find_eq, (create_lookup _ _ _ _ _ _ Hks).
    rewrite decide_False, decide_True; [done..|].
    intros (index & part & _ & _ & E)%(elem_of_index_keys _ _ _ Hks).
    symmetry in E. by apply index_key_ne_primary in E.
Qed.

Lemma create_then_find_witness :
  indexable user al
  ∧ ∃ kv',
      Model.create user kv_empty al "id-1" = (Ok (mkCommit true), kv')
      ∧ Model.find user kv' "id-1" (Some strong)
        = Ok (mkEntryMaybe (primary_key user "id-1")
                           (Some (VObj (with_id al "id-1")))).
Proof.
  assert (indexable user al) as H.
  { apply Forall_cons. split; [by eexists | apply Forall_nil_2]. }
  split; [exact H|].
  exact (create_then_find user kv_empty al "id-1" (Some strong) H).
Defined.

(** ** delete *)

(** C7, amended.  For a live record whose indexed fields all hold key
    parts, [delete] commits one atomic operation made of the primary
    [delete] and one index [delete] per indexed field at the value the
    stored record holds; afterwards [find] on the identifier is absent
    and [findByIndex] on every indexed field at that value is absent. *)
Theorem delete_removes_primary_and_index this kv id r consistency :
  live this kv id r →
  indexable this r →
  ∃ kv',
    Model.delete this kv id = (Ok (Some (mkCommit true)), kv')
    ∧ commit kv
        (MDelete [Model.str (Model.key this); Model.str id]
         :: ((λ index,
                MDelete [Model.str (Model.index_name this index);
                         VPrim (prop r index)])
             <$> Model.indexes this))
      = (Ok (mkCommit true), kv')
    ∧ Model.find this kv' id consistency
      = Ok (mkEntryMaybe (primary_key this id) None)
    ∧ ∀ index, index ∈ Model.indexes this →
        Model.findByIndex this kv' index (prop r index) consistency
        = Ok None.
Proof.
  intros Hlive Hix. destruct (indexable_keys _ _ Hix) as [ks Hks].
  assert (Model.delete this kv id
          = (Ok (Some (mkCommit true)), (Model.delete this kv id).2)) as Heq.
  { rewrite delete_eq, Hlive. cbn [truthy].
    change (js_prop (VObj r)) with (prop r). by rewrite Hks. }
  exists (Model.delete this kv id).2. split_and!.
  - exact Heq.
  - rewrite delete_eq, Hlive. cbn [truthy].
    change (js_prop (VObj r)) with (prop r). rewrite Hks. cbn [snd].
    unfold commit. rewrite mapM_cons, encode_index_deletes.
    cbn [encode_mutation]. rewrite encode_primary, Hks. simpl.
    by rewrite foldl_apply_deletes.
  - rewrite find_eq.
    rewrite (delete_lookup _ _ _ (VObj r) ks) by done.
    case_decide; [done|]. by rewrite decide_True.
  - intros index Hindex. rewrite findByIndex_eq.
    unfold indexable in Hix. rewrite Forall_forall in Hix.
    destruct (Hix _ Hindex) as [part Hpart]. rewrite Hpart.
    rewrite (delete_lookup _ _ _ (VObj r) ks) by done.
    rewrite decide_True; [done|].
    apply (elem_of_index_keys _ _ _ Hks). eauto.
Qed.

Lemma delete_removes_primary_and_index_witness :
  live user (Model.create user kv_empty al "id-1").2 "id-1"
       (with_id al "id-1")
  ∧ indexable user (with_id al "id-1")
  ∧ ∃ kv',
      Model.delete user (Model.create user kv_empty al "id-1").2 "id-1"
      = (Ok (Some (mkCommit true)), kv')
      ∧ commit (Model.create user kv_empty al "id-1").2
          (MDelete [Model.str (Model.key user); Model.str "id-1"]
           :: ((λ index,
                  MDelete [Model.str (Model.index_name user index);
                           VPrim (prop (with_id al "id-1") index)])
               <$> Model.indexes user))
        = (Ok (mkCommit true), kv')
      ∧ Model.find user kv' "id-1" None
        = Ok (mkEntryMaybe (primary_key user "id-1") None)
      ∧ ∀ index, index ∈ Model.indexes user →
          Model.findByIndex user kv' index
            (prop (with_id al "id-1") index) None
          = Ok None.
Proof.
  assert (live user (Model.create user kv_empty al "id-1").2 "id-1"
               (with_id al "id-1")) as Hlive by (vm_compute; reflexivity).
  assert (indexable user (with_id al "id-1")) as Hix.
  { apply Forall_cons. split; [by eexists | apply Forall_nil_2]. }
  split_and!; [exact Hlive | exact Hix|].
  exact (delete_removes_primary_and_index user _ "id-1" _ None Hlive Hix).
Defined.

(** A live record without one of the declared indexed fields cannot be
    deleted: the commit is rejected and the store is left as it was. *)
Lemma delete_rejected_on_missing_field this kv id (r : obj) index :
  live this kv id r →
  index ∈ Model.indexes this →
  r !! index = None →
  Model.delete this kv id = (Throw TypeError, kv).
Proof.
  intros Hlive Hindex Hnone.
  rewrite delete_eq, Hlive. cbn [truthy].
  change (js_prop (VObj r)) with (prop r).
  rewrite (not_indexable_keys this r index); [done..|].
  unfold prop. by rewrite Hnone.
Qed.

(** C7 fails as stated, for not every live record can be deleted.  After
    [create] and an [update] that does not name the indexed field, the
    stored record has lost that field: it is live, [delete] on it is
    rejected, [find] still returns it and the index entry written by
    [create] still leads to it.  And when [id] is an indexed field, the
    entry [create] wrote under the input's own [id] is still in the store
    after a [delete] that committed. *)
Lemma delete_leaves_live_record :
  live user (run user kv_empty [Create al "id-1"; Update "id-1" anon])
       "id-1" anon
  ∧ Model.delete user
      (run user kv_empty [Create al "id-1"; Update "id-1" anon]) "id-1"
    = (Throw TypeError,
       run user kv_empty [Create al "id-1"; Update "id-1" anon])
  ∧ Model.find user
      (Model.delete user
         (run user kv_empty [Create al "id-1"; Update "id-1" anon])
         "id-1").2 "id-1" None
    = Ok (mkEntryMaybe (primary_key user "id-1") (Some (VObj anon)))
  ∧ Model.findByIndex user
      (Model.delete user
         (run user kv_empty [Create al "id-1"; Update "id-1" anon])
         "id-1").2 "email" (PStr "x@y.com") None
    = Ok (Some (mkEntryMaybe (primary_key user "id-1") (Some (VObj anon))))
  ∧ (Model.delete keyed (Model.create keyed kv_empty own_id "id-1").2
       "id-1").1
    = Ok (Some (mkCommit true))
  ∧ (Model.delete keyed (Model.create keyed kv_empty own_id "id-1").2
       "id-1").2 !! index_key keyed "id" (KStr "u-1")
    = Some (Model.str "id-1").
Proof.
  assert (live user (run user kv_empty [Create al "id-1"; Update "id-1" anon])
               "id-1" anon) as Hlive by (vm_compute; reflexivity).
  assert (Model.delete user
            (run user kv_empty [Create al "id-1"; Update "id-1" anon]) "id-1"
          = (Throw TypeError,
             run user kv_empty [Create al "id-1"; Update "id-1" anon]))
    as Hdel.
  { apply (delete_rejected_on_missing_field user _ "id-1" anon "email");
      [exact Hlive | by left | vm_compute; reflexivity]. }
  split_and!; [exact Hlive | exact Hdel | | | |].
  - rewrite Hdel. vm_compute. reflexivity.
  - rewrite Hdel. vm_compute. reflexivity.
  - vm_compute. reflexivity.
  - vm_compute. reflexivity.
Qed.

(** C8 fails as stated: [delete] has no test for a missing field.  For a
    live record without its indexed field the operation it builds still
    holds the index deletion, keyed on [undefined]; the store rejects that
    key, the commit throws and the primary record stays. *)
Lemma delete_builds_key_from_missing_field :
  live user kv_anon "id-1" (with_id anon "id-1")
  ∧ with_id anon "id-1" !! "email" = None
  ∧ MDelete [Model.str "user_by_email"; VPrim PUndefined]
      ∈ Model.delete_op user "id-1" (VObj (with_id anon "id-1"))
  ∧ Model.delete user kv_anon "id-1" = (Throw TypeError, kv_anon).
Proof.
  assert (live user kv_anon "id-1" (with_id anon "id-1")) as Hlive
    by (vm_compute; reflexivity).
  assert (with_id anon "id-1" !! "email" = None) as Hnone
    by (vm_compute; reflexivity).
  split_and!; [exact Hlive | exact Hnone | |].
  - rewrite delete_op_unfold. right. left.
  - apply (delete_rejected_on_missing_field user kv_anon "id-1"
             (with_id anon "id-1") "email"); [done | by left | done].
Qed.

(** C8, amended.  For a live record that lacks a declared indexed field,
    [delete] still issues the index deletion for that field, with the key
    built from [undefined]; the store rejects that key, so the commit
    throws and nothing is deleted. *)
Theorem delete_missing_indexed_field this kv id (r : obj) index :
  live this kv id r →
  index ∈ Model.indexes this →
  r !! index = None →
  MDelete [Model.str (Model.index_name this index); VPrim PUndefined]
    ∈ Model.delete_op this id (VObj r)
  ∧ Model.delete this kv id = (Throw TypeError, kv).
Proof.
  intros Hlive Hindex Hnone.
  assert (prop r index = PUndefined) as Hundef.
  { unfold prop. by rewrite Hnone. }
  split.
  - rewrite delete_op_unfold. right.
    apply list_elem_of_fmap. exists index.
    cbn [js_prop]. by rewrite Hundef.
  - rewrite delete_eq, Hlive. cbn [truthy].
    change (js_prop (VObj r)) with (prop r).
    rewrite (not_indexable_keys this r index); [done..|].
    by rewrite Hundef.
Qed.

Lemma delete_missing_indexed_field_witness :
  live user kv_anon "id-1" (with_id anon "id-1")
  ∧ "email" ∈ Model.indexes user
  ∧ with_id anon "id-1" !! "email" = None
  ∧ MDelete [Model.str (Model.index_name user "email"); VPrim PUndefined]
      ∈ Model.delete_op user "id-1" (VObj (with_id anon "id-1"))
  ∧ Model.delete user kv_anon "id-1" = (Throw TypeError, kv_anon).
Proof.
  assert (live user kv_anon "id-1" (with_id anon "id-1")) as Hlive
    by (vm_compute; reflexivity).
  assert ("email" ∈ Model.indexes user) as Hindex by (by left).
  assert (with_id anon "id-1" !! "email" = None) as Hnone by (vm_compute; reflexivity).
  split_and!; [exact Hlive | exact Hindex | exact Hnone | ..];
    apply (delete_missing_indexed_field user kv_anon "id-1" _ "email"
             Hlive Hindex Hnone).
Defined.

(** ** findByIndex *)

(** C9 fails as stated: when the index entry is present and the primary
    record is absent, [findByIndex] does not take its bare [return]; it
    passes on the entry the store gives for the primary key, whose value
    is absent but whose key holds the dangling identifier. *)
Lemma findByIndex_surfaces_dangling_identifier :
  kv_dangling !! index_key user "email" (KStr "x@y.com")
  = Some (Model.str "id-9")
  ∧ kv_dangling !! primary_key user "id-9" = None
  ∧ Model.findByIndex user kv_dangling "email" (PStr "x@y.com") None
    = Ok (Some (mkEntryMaybe [KStr "user"; KStr "id-9"] None))
  ∧ Model.findByIndex user kv_dangling "email" (PStr "x@y.com") None
    ≠ Ok None.
Proof.
  split_and!; [vm_compute; reflexivity.. |].
  vm_compute. discriminate.
Qed.

(** C9, amended.  For every field and every value the store takes as a
    key part: if the index entry is absent the result is absent (the bare
    [return]); if the index entry holds an identifier whose primary record
    is absent, the result is the store's entry for that primary key with
    an absent value, so no record is returned, though the entry's key
    names the identifier. *)
Theorem findByIndex_absence this kv index value part consistency :
  key_part (VPrim value) = Some part →
  (kv !! index_key this index part = None →
   Model.findByIndex this kv index value consistency = Ok None)
  ∧ (∀ id,
       kv !! index_key this index part = Some (Model.str id) →
       id ≠ EmptyString →
       kv !! primary_key this id = None →
       Model.findByIndex this kv index value consistency
       = Ok (Some (mkEntryMaybe (primary_key this id) None))).
Proof.
  intros Hpart. split.
  - intros Hnone. by rewrite findByIndex_eq, Hpart, Hnone.
  - intros id Hsome Hid Hprimary.
    rewrite findByIndex_eq, Hpart, Hsome.
    assert (truthy (Model.str id) = true) as ->.
    { cbn [truthy Model.str prim_truthy].
      by destruct id. }
    cbn [key_part Model.str]. fold (primary_key this id).
    by rewrite Hprimary.
Qed.

Lemma findByIndex_absence_witness :
  key_part (VPrim (PStr "x@y.com")) = Some (KStr "x@y.com")
  ∧ (kv_dangling !! index_key user "email" (KStr "x@y.com") = None →
     Model.findByIndex user kv_dangling "email" (PStr "x@y.com") None
     = Ok None)
  ∧ (∀ id,
       kv_dangling !! index_key user "email" (KStr "x@y.com")
       = Some (Model.str id) →
       id ≠ EmptyString →
       kv_dangling !! primary_key user id = None →
       Model.findByIndex user kv_dangling "email" (PStr "x@y.com") None
       = Ok (Some (mkEntryMaybe (primary_key user id) None))).
Proof.
  split; [reflexivity|].
  apply (findByIndex_absence user kv_dangling "email" (PStr "x@y.com")
           (KStr "x@y.com") None).
  reflexivity.
Defined.

(** ** update *)

(** C2, evaluated.  After [create] with [email: "x@y.com"] and [update] to
    [email: "z@y.com"], the old value still leads to the entry of the
    record and the new value leads nowhere: [update] wrote the primary key
    with a plain [set] and touched no index entry. *)
Theorem update_leaves_index_stale :
  Model.findByIndex user
    (run user kv_empty [Create al "id-1"; Update "id-1" new_email])
    "email" (PStr "x@y.com") None
  = Ok (Some (mkEntryMaybe (primary_key user "id-1")
                           (Some (VObj new_email))))
  ∧ Model.findByIndex user
      (run user kv_empty [Create al "id-1"; Update "id-1" new_email])
      "email" (PStr "z@y.com") None
    = Ok None.
Proof. split; vm_compute; reflexivity. Qed.

(** C3, evaluated.  After [create] of [{a: 1, b: 2}] and [update] with
    [{a: 9}], [find] returns [{a: 9}] alone: the field [b] and the
    identifier are gone from the stored record. *)
Theorem update_drops_unnamed_fields :
  Model.find plain
    (run plain kv_empty [Create ab "id-1"; Update "id-1" a9]) "id-1" None
  = Ok (mkEntryMaybe (primary_key plain "id-1") (Some (VObj a9)))
  ∧ a9 !! "b" = None
  ∧ a9 !! "id" = None.
Proof. split_and!; vm_compute; reflexivity. Qed.

(** C4, evaluated.  [update] on an identifier with no record does not
    return the absent result: it commits a write, and the store, empty
    before, then holds a record made of the partial value alone, which
    [findAll] yields. *)
Theorem update_fabricates_record :
  Model.update plain kv_empty "nope" a9
  = (Ok (Some (mkCommit true)), {[ primary_key plain "nope" := VObj a9 ]})
  ∧ Model.findAll plain kv_empty None = Ok []
  ∧ Model.findAll plain (Model.update plain kv_empty "nope" a9).2 None
    = Ok [mkEntry (primary_key plain "nope") (VObj a9)].
Proof.
  split_and!; [by rewrite update_eq | reflexivity |].
  rewrite update_eq. cbn [snd]. vm_compute. reflexivity.
Qed.

(** ** The index invariant *)

Lemma prop_with_id_ne (value : obj) id index :
  index ≠ "id" → prop (with_id value id) index = prop value index.
Proof.
  intros Hne. unfold prop, with_id. by rewrite lookup_insert_ne.
Qed.

Lemma create_preserves_index_consistent this kv value id :
  "id" ∉ Model.indexes this →
  index_consistent this kv →
  fresh_create this kv value id →
  index_consistent this (Model.create this kv value id).2.
Proof.
  intros Hid [Hcomplete Hsound] [Hfresh Hunique].
  destruct (index_keys this (prop value)) as [ks|] eqn:Hks;
    [|by rewrite create_eq, Hks].
  pose proof (elem_of_index_keys _ _ _ Hks) as Hin.
  pose proof (create_lookup this kv value id ks) as Hlook.
  assert (∀ id', primary_key this id' ∉ ks) as Hprimary.
  { intros id' (index & part & _ & _ & E)%Hin.
    symmetry in E. by apply index_key_ne_primary in E. }
  assert (∀ index part, index ∈ Model.indexes this →
            holds (with_id value id) index part → holds value index part)
    as Hback.
  { intros index part Hindex. unfold holds.
    rewrite prop_with_id_ne; [done|]. by intros ->. }
  assert (∀ index part, index ∈ Model.indexes this →
            holds value index part → holds (with_id value id) index part)
    as Hforth.
  { intros index part Hindex. unfold holds.
    rewrite prop_with_id_ne; [done|]. by intros ->. }
  split.
  - intros id' r index part Hlive Hindex Hholds.
    unfold live in Hlive. rewrite (Hlook _ Hks) in Hlive.
    rewrite decide_False in Hlive by apply Hprimary.
    rewrite (Hlook _ Hks). case_decide as Hk.
    + apply primary_key_inj in Hk as ->. injection Hlive as <-.
      rewrite decide_True; [done|]. apply Hin.
      exists index, part. split_and!; [done | by apply Hback | done].
    + pose proof (Hcomplete _ _ _ _ Hlive Hindex Hholds) as Hentry.
      rewrite decide_False.
      * rewrite decide_False; [done|]. apply index_key_ne_primary.
      * intros (index2 & part2 & Hindex2 & Hholds2 & E)%Hin.
        apply index_key_inj in E as [-> ->].
        rewrite (Hunique _ _ Hindex2 Hholds2) in Hentry. done.
  - intros index part x Hindex Hentry.
    rewrite (Hlook _ Hks) in Hentry. case_decide as Hk.
    + injection Hentry as <-. exists id, (with_id value id).
      split_and!; [done|..].
      * unfold live. rewrite (Hlook _ Hks).
        rewrite decide_False by apply Hprimary. by rewrite decide_True.
      * apply Hin in Hk as (index2 & part2 & Hindex2 & Hholds2 & E).
        apply index_key_inj in E as [-> ->]. by apply Hforth.
    + rewrite decide_False in Hentry by apply index_key_ne_primary.
      destruct (Hsound _ _ _ Hindex Hentry) as (id0 & r0 & -> & Hlive & Hh).
      exists id0, r0. split_and!; [done| |done].
      unfold live. rewrite (Hlook _ Hks).
      rewrite decide_False by apply Hprimary.
      rewrite decide_False; [done|].
      intros E%primary_key_inj. subst id0.
      unfold live in Hlive. by rewrite Hfresh in Hlive.
Qed.


Lemma index_consistent_empty this : index_consistent this ∅.
Proof.
  split.
  - intros id r index part Hlive. unfold live in Hlive.
    by rewrite lookup_empty in Hlive.
  - intros index part x _ Hentry. by rewrite lookup_empty in Hentry.
Qed.

(** X17.  In a store where every live record is the target of the index
    entries of the values it holds, [findByIndex] on an indexed field at
    the value a live record holds there returns the entry of that
    record. *)
Lemma findByIndex_live this kv id r index value part consistency :
  index_complete this kv →
  live this kv id r →
  index ∈ Model.indexes this →
  prop r index = value →
  key_part (VPrim value) = Some part →
  id ≠ EmptyString →
  Model.findByIndex this kv index value consistency
  = Ok (Some (mkEntryMaybe (primary_key this id) (Some (VObj r)))).
Proof.
  intros Hcomplete Hlive Hindex <- Hpart Hid.
  rewrite findByIndex_eq, Hpart.
  rewrite (Hcomplete _ _ _ _ Hlive Hindex Hpart).
  assert (truthy (Model.str id) = true) as ->.
  { cbn [truthy Model.str prim_truthy]. clear -Hid. by destruct id. }
  cbn [key_part Model.str]. fold (primary_key this id).
  by rewrite Hlive.
Qed.




(** ** findAll *)

Lemma collection_is_equiv this kv (cs cs' : list (string * obj)) :
  (∀ c, c ∈ cs ↔ c ∈ cs') →
  collection_is this kv cs → collection_is this kv cs'.
Proof.
  intros Heq Hcs k x Hk. rewrite (Hcs k x Hk).
  split; intros (c & Hc & ?); exists c; (split; [by apply Heq | done]).
Qed.

Lemma prefix_not_index_key this (field : string → prim) ks k :
  index_keys this field = Some ks →
  has_prefix [KStr (Model.key this)] k = true → k ∉ ks.
Proof.
  intros Hks Hk (index & part & _ & _ & ->)%(elem_of_index_keys _ _ _ Hks).
  by rewrite has_prefix_index in Hk.
Qed.

Lemma indexable_with_id this (value : obj) id :
  indexable this value → indexable this (with_id value id).
Proof.
  unfold indexable. intros H. eapply Forall_impl; [exact H|].
  intros index Hpart. cbn beta in *.
  destruct (decide (index = "id")) as [->|Hne].
  - unfold prop, with_id. rewrite lookup_insert_eq. by eexists.
  - by rewrite prop_with_id_ne.
Qed.

Lemma create_collection this kv (cs : list (string * obj)) c :
  collection_is this kv cs →
  c.1 ∉ cs.*1 →
  indexable this c.2 →
  collection_is this (step this kv (Create c.2 c.1)) (cs ++ [c]).
Proof.
  intros Hcs Hfresh [ks Hks]%indexable_keys k x Hk. cbn [step].
  rewrite (create_lookup _ _ _ _ _ _ Hks).
  rewrite decide_False by by eapply prefix_not_index_key.
  case_decide as Hpk.
  - split.
    + intros [= <-]. exists c. split_and!; [|done..].
      apply elem_of_app. right. by left.
    + intros (c0 & Hc0 & Hk0 & ->). f_equal.
      apply elem_of_app in Hc0 as [Hc0| ->%list_elem_of_singleton]; [|done].
      rewrite Hk0 in Hpk. apply primary_key_inj in Hpk.
      destruct Hfresh. rewrite <- Hpk. apply list_elem_of_fmap. eauto.
  - rewrite (Hcs k x Hk). split.
    + intros (c0 & Hc0 & ?). exists c0. split; [|done].
      apply elem_of_app. by left.
    + intros (c0 & Hc0 & Hk0 & Hx). exists c0. split; [|done].
      apply elem_of_app in Hc0 as [Hc0| ->%list_elem_of_singleton]; done.
Qed.

Lemma delete_collection this kv (cs : list (string * obj)) id :
  collection_is this kv cs →
  Forall (λ c, indexable this c.2) cs →
  collection_is this (step this kv (Delete id))
                (filter (λ c, c.1 ≠ id) cs).
Proof.
  intros Hcs Hix. cbn [step].
  pose proof (Hcs (primary_key this id)) as Hid.
  destruct (kv !! primary_key this id) as [data_value|] eqn:Hpk.
  - destruct (proj1 (Hid data_value (has_prefix_primary this id)) eq_refl)
      as (c & Hc & Hkey & ->).
    apply primary_key_inj in Hkey as ->.
    rewrite Forall_forall in Hix.
    destruct (indexable_keys this _ (indexable_with_id _ _ c.1 (Hix _ Hc)))
      as [ks Hks].
    intros k x Hk.
    rewrite (delete_lookup _ _ _ (VObj (with_id c.2 c.1)) ks) by done.
    rewrite decide_False by by eapply prefix_not_index_key.
    case_decide as Hkpk.
    + split; [done|]. intros (c0 & [Hne _]%list_elem_of_filter & Hk0 & _).
      rewrite Hk0 in Hkpk. by apply primary_key_inj in Hkpk.
    + rewrite (Hcs k x Hk). split.
      * intros (c0 & Hc0 & Hk0 & Hx). exists c0. split; [|done].
        apply list_elem_of_filter. split; [|done].
        intros E. by rewrite Hk0, E in Hkpk.
      * intros (c0 & [_ Hc0]%list_elem_of_filter & ?). by exists c0.
  - rewrite delete_eq, Hpk. cbn [snd].
    eapply collection_is_equiv; [|exact Hcs].
    intros c. rewrite list_elem_of_filter. split; [|by intros [_ ?]].
    intros Hc. split; [|done]. intros E.
    assert (@None jsval = Some (VObj (with_id c.2 c.1))) as H; [|done].
    apply Hid; [apply has_prefix_primary|]. exists c. by rewrite E.
Qed.

Lemma run_app this kv calls1 calls2 :
  run this kv (calls1 ++ calls2) = run this (run this kv calls1) calls2.
Proof. apply foldl_app. Qed.

Lemma run_creates_collection this (cs0 cs : list (string * obj)) kv :
  collection_is this kv cs0 →
  NoDup (cs0.*1 ++ cs.*1) →
  Forall (λ c, indexable this c.2) cs →
  collection_is this (run this kv (creates cs)) (cs0 ++ cs).
Proof.
  revert cs0 kv. induction cs as [|c cs IH]; intros cs0 kv Hcs0 Hnd Hix.
  - by rewrite app_nil_r.
  - rewrite fmap_cons in Hnd. apply NoDup_app in Hnd as (Hnd0 & Hdisj & Hnd1).
    apply NoDup_cons in Hnd1 as [Hc Hnd1].
    apply Forall_cons in Hix as [Hixc Hix].
    replace (cs0 ++ c :: cs) with ((cs0 ++ [c]) ++ cs)
      by by rewrite <- app_assoc.
    apply IH; [|  |done].
    + apply create_collection; [done| |done].
      intros Hin. apply (Hdisj _ Hin). by left.
    + rewrite fmap_app. apply NoDup_app. split_and!.
      * apply NoDup_app. split_and!; [done| |apply NoDup_singleton].
        intros id Hin ->%list_elem_of_singleton.
        apply (Hdisj _ Hin). by left.
      * intros id [Hin| ->%list_elem_of_singleton]%elem_of_app Hin'.
        -- apply (Hdisj _ Hin). by right.
        -- done.
      * done.
Qed.

Lemma run_deletes_collection this (cs : list (string * obj)) ds kv :
  collection_is this kv cs →
  Forall (λ c, indexable this c.2) cs →
  collection_is this (run this kv (deletes ds))
                (filter (λ c, c.1 ∉ ds) cs).
Proof.
  revert cs kv. induction ds as [|d ds IH]; intros cs kv Hcs Hix.
  - eapply collection_is_equiv; [|exact Hcs].
    intros c. rewrite list_elem_of_filter. split; [|by intros [_ ?]].
    intros Hc. split; [apply not_elem_of_nil | done].
  - cbn [deletes fmap list_fmap run foldl].
    eapply collection_is_equiv;
      [|apply (IH (filter (λ c, c.1 ≠ d) cs));
        [by apply delete_collection
        |rewrite Forall_forall in *;
         intros c [_ Hc]%list_elem_of_filter; by apply Hix]].
    intros c. rewrite !list_elem_of_filter, not_elem_of_cons. tauto.
Qed.

Lemma findAll_eq this kv :
  Model.findAll this kv None
  = Ok (merge_sort entry_le
          (filter (λ e, has_prefix [KStr (Model.key this)] (entry_key e) = true)
                  ((λ kx, mkEntry kx.1 kx.2) <$> map_to_list kv))).
Proof. reflexivity. Qed.

Lemma elem_of_findAll this kv es :
  Model.findAll this kv None = Ok es →
  ∀ e, e ∈ es ↔ has_prefix [KStr (Model.key this)] (entry_key e) = true
               ∧ kv !! entry_key e = Some (entry_value e).
Proof.
  rewrite findAll_eq. intros [= <-] e.
  rewrite merge_sort_Permutation, list_elem_of_filter, list_elem_of_fmap.
  split.
  - intros [Hk ([k x] & -> & Hkx%elem_of_map_to_list)]. done.
  - intros [Hk Hkx]. split; [done|].
    exists (entry_key e, entry_value e). split; [by destruct e|].
    by apply elem_of_map_to_list.
Qed.

Lemma NoDup_findAll this kv es :
  Model.findAll this kv None = Ok es → NoDup (entry_key <$> es).
Proof.
  rewrite findAll_eq. intros [= <-].
  rewrite merge_sort_Permutation.
  eapply sublist_NoDup; [apply (NoDup_fst_map_to_list kv)|].
  etrans; [apply fmap_sublist, sublist_filter|].
  rewrite <- list_fmap_compose.
  by erewrite list_fmap_ext; [|intros ? []; reflexivity].
Qed.

Lemma NoDup_fst_inj {A B} (l : list (A * B)) c c' :
  NoDup l.*1 → c ∈ l → c' ∈ l → c.1 = c'.1 → c = c'.
Proof.
  induction l as [|x l IH]; intros Hnd Hc Hc' E.
  - by apply elem_of_nil in Hc.
  - rewrite fmap_cons in Hnd. apply NoDup_cons in Hnd as [Hx Hnd].
    apply elem_of_cons in Hc as [->|Hc];
      apply elem_of_cons in Hc' as [->|Hc']; [done| | |by apply IH].
    + destruct Hx. rewrite E. by apply list_elem_of_fmap_2.
    + destruct Hx. rewrite <- E. by apply list_elem_of_fmap_2.
Qed.

Lemma length_filter_not_deleted {B} (cs : list (string * B)) (ds : list string) :
  NoDup cs.*1 → NoDup ds → ds ⊆ cs.*1 →
  length (filter (λ c, c.1 ∉ ds) cs) = length cs - length ds.
Proof.
  intros Hcs Hds Hsub.
  pose proof (filter_app_complement (λ c : string * B, c.1 ∈ ds) cs) as Hperm.
  apply Permutation_length in Hperm. rewrite length_app in Hperm.
  assert ((filter (λ c : string * B, c.1 ∈ ds) cs).*1 ≡ₚ ds) as Hsame.
  { apply NoDup_Permutation; [|done|].
    - eapply sublist_NoDup; [exact Hcs|]. apply fmap_sublist, sublist_filter.
    - intros id. rewrite list_elem_of_fmap. split.
      + by intros (c & -> & [? _]%list_elem_of_filter).
      + intros Hid. destruct (proj1 (list_elem_of_fmap _ _ _) (Hsub _ Hid))
          as (c & -> & Hc).
        exists c. split; [done|]. by apply list_elem_of_filter. }
  apply Permutation_length in Hsame. rewrite length_fmap in Hsame.
  change (λ c : string * B, c.1 ∉ ds) with (λ c : string * B, ¬ c.1 ∈ ds).
  lia.
Qed.

(** C10, amended.  From a store with nothing under the collection's prefix, after
    N [create] calls (distinct identifiers, values whose indexed fields
    hold key parts) followed by M [delete] calls on distinct identifiers
    among them, [findAll] yields N−M entries with pairwise distinct keys,
    and they are exactly the entries [(key, id) ↦ { ...value, id }] of the
    created records that were not deleted; no index entry is among them. *)
Theorem findAll_enumerates_live_records this kv
    (cs : list (string * obj)) (ds : list string) :
  collection_empty this kv →
  NoDup cs.*1 →
  Forall (λ c, indexable this c.2) cs →
  NoDup ds →
  ds ⊆ cs.*1 →
  ∃ es,
    Model.findAll this (run this kv (creates cs ++ deletes ds)) None = Ok es
    ∧ length es = length cs - length ds
    ∧ NoDup (entry_key <$> es)
    ∧ ∀ e, e ∈ es ↔ (∃ c, c ∈ cs ∧ (c.1 ∉ ds) ∧ e = record_entry this c).
Proof.
  intros Hempty Hcs Hix Hds Hsub.
  set (kv' := run this kv (creates cs ++ deletes ds)).
  assert (collection_is this kv' (filter (λ c, c.1 ∉ ds) cs)) as Hcol.
  { unfold kv'. rewrite run_app.
    apply run_deletes_collection; [|done].
    apply (run_creates_collection this [] cs); [|done..].
    intros k x Hk. rewrite (Hempty k Hk). split; [done|].
    by intros (c & ?%elem_of_nil & _). }
  destruct (Model.findAll this kv' None) as [es|] eqn:Hes;
    [|by rewrite findAll_eq in Hes].
  pose proof (elem_of_findAll _ _ _ Hes) as Hin.
  pose proof (NoDup_findAll _ _ _ Hes) as Hnd.
  assert (∀ e, e ∈ es ↔ (∃ c, c ∈ cs ∧ (c.1 ∉ ds) ∧ e = record_entry this c))
    as Hchar.
  { intros e. rewrite Hin. split.
    - intros [Hk Hlook].
      destruct (proj1 (Hcol _ _ Hk) Hlook)
        as (c & [Hnot Hc]%list_elem_of_filter & Hkey & Hval).
      exists c. split_and!; [done..|].
      destruct e as [k x]. cbn in *. by subst.
    - intros (c & Hc & Hnot & ->). cbn [record_entry entry_key entry_value].
      split; [apply has_prefix_primary|].
      apply Hcol; [apply has_prefix_primary|].
      exists c. split; [|done]. by apply list_elem_of_filter. }
  exists es. split_and!; [done| |done|done].
  rewrite <- (length_filter_not_deleted cs ds) by done.
  rewrite <- (length_fmap (record_entry this)).
  apply Permutation_length, NoDup_Permutation.
  - by apply NoDup_fmap_1 in Hnd.
  - apply NoDup_fmap_2_strong.
    + intros c c' [_ Hc]%list_elem_of_filter [_ Hc']%list_elem_of_filter E.
      apply (NoDup_fst_inj cs); [done..|].
      injection E as E _. done.
    + apply NoDup_filter. by apply NoDup_fmap_1 in Hcs.
  - intros e. rewrite Hchar, list_elem_of_fmap. split.
    + intros (c & ? & ? & ->). exists c. split; [done|].
      by apply list_elem_of_filter.
    + intros (c & -> & [? ?]%list_elem_of_filter). by exists c.
Qed.

(** C10 fails as stated, for not every [create] call creates a record.
    Of two calls, the second on a value without the indexed field, the
    second is rejected, and with no [delete] at all [findAll] yields one
    record where N−M is two. *)
Lemma findAll_misses_rejected_create :
  Model.findAll user
    (run user kv_empty
       (creates [("id-1", al); ("id-2", anon)] ++ deletes [])) None
  = Ok [record_entry user ("id-1", al)]
  ∧ length (creates [("id-1", al); ("id-2", anon)]) - length (deletes [])
    = 2
  ∧ length [record_entry user ("id-1", al)] = 1.
Proof. split_and!; [vm_compute; reflexivity | reflexivity..]. Qed.

Lemma findAll_enumerates_live_records_witness :
  collection_empty user kv_empty
  ∧ NoDup [("id-1", al); ("id-2", bo); ("id-3", cy)].*1
  ∧ Forall (λ c, indexable user c.2) [("id-1", al); ("id-2", bo); ("id-3", cy)]
  ∧ NoDup ["id-2"]
  ∧ ["id-2"] ⊆ [("id-1", al); ("id-2", bo); ("id-3", cy)].*1
  ∧ ∃ es,
      Model.findAll user
        (run user kv_empty
           (creates [("id-1", al); ("id-2", bo); ("id-3", cy)]
            ++ deletes ["id-2"])) None
      = Ok es
      ∧ length es = 3 - 1
      ∧ NoDup (entry_key <$> es)
      ∧ ∀ e, e ∈ es ↔ (∃ c, c ∈ [("id-1", al); ("id-2", bo); ("id-3", cy)]
                            ∧ (c.1 ∉ ["id-2"]) ∧ e = record_entry user c).
Proof.
  assert (collection_empty user kv_empty) as H1.
  { intros k _. apply lookup_empty. }
  assert (NoDup [("id-1", al); ("id-2", bo); ("id-3", cy)].*1) as H2.
  { apply (bool_decide_unpack _). vm_compute. exact I. }
  assert (Forall (λ c, indexable user c.2)
                 [("id-1", al); ("id-2", bo); ("id-3", cy)]) as H3.
  { repeat (apply Forall_cons; split;
            [apply Forall_cons; split; [by eexists | apply Forall_nil_2]|]).
    apply Forall_nil_2. }
  assert (NoDup ["id-2"]) as H4.
  { apply (bool_decide_unpack _). vm_compute. exact I. }
  assert (["id-2"] ⊆ [("id-1", al); ("id-2", bo); ("id-3", cy)].*1) as H5.
  { intros id ->%list_elem_of_singleton. right. left. }
  split_and!; [exact H1 | exact H2 | exact H3 | exact H4 | exact H5|].
  exact (findAll_enumerates_live_records user kv_empty
           [("id-1", al); ("id-2", bo); ("id-3", cy)] ["id-2"]
           H1 H2 H3 H4 H5).
Defined.

(** * Further properties of the class *)

(** ** Lookups after create, reads through the index *)

Lemma create_lookup_primary this kv value id :
  indexable this value →
  (Model.create this kv value id).2 !! primary_key this id
  = Some (VObj (with_id value id)).
Proof.
  intros [ks Hks]%indexable_keys.
  rewrite (create_lookup _ _ _ _ _ _ Hks).
  rewrite decide_False, decide_True; [done..|].
  by eapply prefix_not_index_key, has_prefix_primary.
Qed.

Lemma create_lookup_index this kv value id index part :
  indexable this value →
  index ∈ Model.indexes this →
  holds value index part →
  (Model.create this kv value id).2 !! index_key this index part
  = Some (Model.str id).
Proof.
  intros [ks Hks]%indexable_keys Hindex Hholds.
  rewrite (create_lookup _ _ _ _ _ _ Hks), decide_True; [done|].
  apply (elem_of_index_keys _ _ _ Hks). eauto.
Qed.

Lemma create_lookup_other_primary this kv value id id' :
  id' ≠ id →
  (Model.create this kv value id).2 !! primary_key this id'
  = kv !! primary_key this id'.
Proof.
  intros Hne.
  destruct (index_keys this (prop value)) as [ks|] eqn:Hks;
    [|by rewrite create_eq, Hks].
  rewrite (create_lookup _ _ _ _ _ _ Hks).
  rewrite decide_False
    by by eapply prefix_not_index_key, has_prefix_primary.
  rewrite decide_False; [done|]. by intros ?%primary_key_inj.
Qed.

Lemma truthy_str id : id ≠ EmptyString → truthy (Model.str id) = true.
Proof. intros Hid. cbn [truthy Model.str prim_truthy]. by destruct id. Qed.

Lemma findByIndex_pointer this kv index value part id consistency :
  key_part (VPrim value) = Some part →
  kv !! index_key this index part = Some (Model.str id) →
  id ≠ EmptyString →
  Model.findByIndex this kv index value consistency
  = Ok (Some (mkEntryMaybe (primary_key this id)
                           (kv !! primary_key this id))).
Proof.
  intros Hpart Hentry Hid.
  rewrite findByIndex_eq, Hpart, Hentry, truthy_str by done.
  reflexivity.
Qed.

Lemma indexable_holds this (value : obj) index :
  indexable this value → index ∈ Model.indexes this →
  ∃ part, holds value index part.
Proof.
  unfold indexable. rewrite Forall_forall. intros H Hindex.
  destruct (H _ Hindex) as [part Hpart]. by exists part.
Qed.

(** X1.  A value that lacks a declared indexed field (or holds there
    something the store does not take as a key part) cannot be created:
    the commit is rejected with the store's [TypeError] and nothing is
    written, the primary entry included. *)
Theorem create_rejected_leaves_store this kv value id index :
  index ∈ Model.indexes this →
  key_part (VPrim (prop value index)) = None →
  Model.create this kv value id = (Throw TypeError, kv).
Proof.
  intros Hindex Hnone.
  by rewrite create_eq, (not_indexable_keys this value index).
Qed.

Lemma create_rejected_leaves_store_witness :
  "email" ∈ Model.indexes user
  ∧ key_part (VPrim (prop anon "email")) = None
  ∧ Model.create user kv_empty anon "id-1" = (Throw TypeError, kv_empty).
Proof.
  assert ("email" ∈ Model.indexes user) as H1 by (by left).
  assert (key_part (VPrim (prop anon "email")) = None) as H2
    by (vm_compute; reflexivity).
  split_and!; [exact H1 | exact H2|].
  exact (create_rejected_leaves_store user kv_empty anon "id-1" "email" H1 H2).
Defined.

(** X2.  After [create], [findByIndex] on any declared indexed field at
    the value the input holds there returns the entry of the record just
    created, whatever the store held before. *)
Theorem findByIndex_after_create this kv value id index consistency :
  indexable this value →
  index ∈ Model.indexes this →
  id ≠ EmptyString →
  Model.findByIndex this (Model.create this kv value id).2
    index (prop value index) consistency
  = Ok (Some (mkEntryMaybe (primary_key this id)
                           (Some (VObj (with_id value id))))).
Proof.
  intros Hix Hindex Hid.
  destruct (indexable_holds _ _ _ Hix Hindex) as [part Hpart].
  rewrite (findByIndex_pointer _ _ _ _ part id); [|done| |done].
  - by rewrite create_lookup_primary.
  - by apply create_lookup_index.
Qed.

Lemma findByIndex_after_create_witness :
  indexable user al
  ∧ "email" ∈ Model.indexes user
  ∧ "id-1" ≠ EmptyString
  ∧ Model.findByIndex user (Model.create user kv_empty al "id-1").2
      "email" (prop al "email") None
    = Ok (Some (mkEntryMaybe (primary_key user "id-1")
                             (Some (VObj (with_id al "id-1"))))).
Proof.
  assert (indexable user al) as H1.
  { apply Forall_cons. split; [by eexists | apply Forall_nil_2]. }
  assert ("email" ∈ Model.indexes user) as H2 by (by left).
  assert ("id-1" ≠ EmptyString) as H3 by discriminate.
  split_and!; [exact H1 | exact H2 | exact H3|].
  exact (findByIndex_after_create user kv_empty al "id-1" "email" None H1 H2 H3).
Defined.

(** X3.  Indexed values are not unique: when a second record is created
    with the value a first one holds at an indexed field, the index entry
    is overwritten and [findByIndex] returns the second record, while the
    first stays stored under its identifier. *)
Theorem create_last_writer_wins this kv value1 id1 value2 id2 index
    consistency :
  indexable this value1 →
  indexable this value2 →
  index ∈ Model.indexes this →
  prop value1 index = prop value2 index →
  id1 ≠ id2 →
  id2 ≠ EmptyString →
  Model.findByIndex this
    (Model.create this (Model.create this kv value1 id1).2 value2 id2).2
    index (prop value1 index) consistency
  = Ok (Some (mkEntryMaybe (primary_key this id2)
                           (Some (VObj (with_id value2 id2)))))
  ∧ Model.find this
      (Model.create this (Model.create this kv value1 id1).2 value2 id2).2
      id1 consistency
    = Ok (mkEntryMaybe (primary_key this id1)
                       (Some (VObj (with_id value1 id1)))).
Proof.
  intros Hix1 Hix2 Hindex Hsame Hne Hid2. split.
  - rewrite Hsame.
    destruct (indexable_holds _ _ _ Hix2 Hindex) as [part Hpart].
    rewrite (findByIndex_pointer _ _ _ _ part id2); [|done| |done].
    + by rewrite create_lookup_primary.
    + by apply create_lookup_index.
  - rewrite find_eq, create_lookup_other_primary by done.
    by rewrite create_lookup_primary.
Qed.

Lemma create_last_writer_wins_witness :
  indexable user al
  ∧ indexable user bo
  ∧ "email" ∈ Model.indexes user
  ∧ prop al "email" = prop bo "email"
  ∧ "id-1" ≠ "id-2"
  ∧ "id-2" ≠ EmptyString
  ∧ (Model.findByIndex user
       (Model.create user (Model.create user kv_empty al "id-1").2 bo "id-2").2
       "email" (prop al "email") None
     = Ok (Some (mkEntryMaybe (primary_key user "id-2")
                              (Some (VObj (with_id bo "id-2")))))
     ∧ Model.find user
         (Model.create user (Model.create user kv_empty al "id-1").2
            bo "id-2").2
         "id-1" None
       = Ok (mkEntryMaybe (primary_key user "id-1")
                          (Some (VObj (with_id al "id-1"))))).
Proof.
  assert (indexable user al) as H1.
  { apply Forall_cons. split; [by eexists | apply Forall_nil_2]. }
  assert (indexable user bo) as H2.
  { apply Forall_cons. split; [by eexists | apply Forall_nil_2]. }
  assert ("email" ∈ Model.indexes user) as H3 by (by left).
  assert (prop al "email" = prop bo "email") as H4
    by (vm_compute; reflexivity).
  assert ("id-1" ≠ "id-2") as H5 by discriminate.
  assert ("id-2" ≠ EmptyString) as H6 by discriminate.
  split_and!; [exact H1 | exact H2 | exact H3 | exact H4 | exact H5
              | exact H6 | ..];
    apply (create_last_writer_wins user kv_empty al "id-1" bo "id-2"
             "email" None H1 H2 H3 H4 H5 H6).
Defined.

(** ** delete: missing records, repetition, neighbours *)

(** X4.  [delete] on an identifier under which the store holds nothing,
    or holds a falsy value, returns the bare [undefined] and leaves the
    store as it is. *)
Theorem delete_absent_is_noop this kv id :
  (kv !! primary_key this id = None
   ∨ ∃ v, kv !! primary_key this id = Some v ∧ truthy v = false) →
  Model.delete this kv id = (Ok None, kv).
Proof.
  intros [Hnone|(v & Hv & Hfalsy)].
  - by rewrite delete_eq, Hnone.
  - by rewrite delete_eq, Hv, Hfalsy.
Qed.

Lemma delete_absent_is_noop_witness :
  (kv_empty !! primary_key user "id-1" = None
   ∨ ∃ v, kv_empty !! primary_key user "id-1" = Some v ∧ truthy v = false)
  ∧ Model.delete user kv_empty "id-1" = (Ok None, kv_empty).
Proof.
  assert (kv_empty !! primary_key user "id-1" = None
          ∨ ∃ v, kv_empty !! primary_key user "id-1" = Some v
                 ∧ truthy v = false) as H.
  { left. reflexivity. }
  split; [exact H|].
  exact (delete_absent_is_noop user kv_empty "id-1" H).
Defined.

(** X5.  [delete] is idempotent on the store: a second [delete] of the
    same identifier changes nothing, and when the first one committed the
    second returns the bare [undefined]. *)
Theorem delete_twice this kv id :
  (Model.delete this (Model.delete this kv id).2 id).2
  = (Model.delete this kv id).2
  ∧ ((Model.delete this kv id).1 = Ok (Some (mkCommit true)) →
     Model.delete this (Model.delete this kv id).2 id
     = (Ok None, (Model.delete this kv id).2)).
Proof.
  destruct (kv !! primary_key this id) as [data_value|] eqn:Hpk.
  2: { rewrite (delete_eq this kv), Hpk. cbn [fst snd].
       split; [by rewrite delete_eq, Hpk | done]. }
  destruct (truthy data_value) eqn:Htruthy.
  2: { rewrite (delete_eq this kv), Hpk, Htruthy. cbn [fst snd].
       split; [by rewrite delete_eq, Hpk, Htruthy | done]. }
  destruct (index_keys this (js_prop data_value)) as [ks|] eqn:Hks.
  2: { rewrite (delete_eq this kv), Hpk, Htruthy, Hks. cbn [fst snd].
       split; [by rewrite delete_eq, Hpk, Htruthy, Hks | done]. }
  assert ((Model.delete this kv id).2 !! primary_key this id = None) as Hgone.
  { rewrite (delete_lookup _ _ _ _ _ _ Hpk Htruthy Hks).
    case_decide; [done|]. by rewrite decide_True. }
  split; [|intros _]; by rewrite (delete_eq this (Model.delete this kv id).2), Hgone.
Qed.

(** X6.  [delete] never touches the record of another identifier:
    on any store, [find] on a different identifier returns the same entry
    before and after. *)
Theorem delete_keeps_other_records this kv id id' consistency :
  id' ≠ id →
  Model.find this (Model.delete this kv id).2 id' consistency
  = Model.find this kv id' consistency.
Proof.
  intros Hne. rewrite !find_eq. f_equal. f_equal.
  destruct (kv !! primary_key this id) as [data_value|] eqn:Hpk;
    [|by rewrite delete_eq, Hpk].
  destruct (truthy data_value) eqn:Htruthy;
    [|by rewrite delete_eq, Hpk, Htruthy].
  destruct (index_keys this (js_prop data_value)) as [ks|] eqn:Hks;
    [|by rewrite delete_eq, Hpk, Htruthy, Hks].
  rewrite (delete_lookup _ _ _ _ _ _ Hpk Htruthy Hks).
  rewrite decide_False
    by by eapply prefix_not_index_key, has_prefix_primary.
  rewrite decide_False; [done|]. by intros ?%primary_key_inj.
Qed.

Lemma delete_keeps_other_records_witness :
  "id-2" ≠ "id-1"
  ∧ Model.find user
      (Model.delete user (run user kv_empty (creates [("id-1", al); ("id-2", cy)]))
         "id-1").2 "id-2" None
    = Model.find user
        (run user kv_empty (creates [("id-1", al); ("id-2", cy)])) "id-2" None.
Proof.
  assert ("id-2" ≠ "id-1") as H by discriminate.
  split; [exact H|].
  exact (delete_keeps_other_records user _ "id-1" "id-2" None H).
Defined.

(** X7.  [delete] removes the index entry at the record's value without
    looking at the identifier the entry holds.  When another live record
    holds the same value, that record stays stored and keeps the value,
    but [findByIndex] on the value no longer finds it. *)
Theorem delete_unlinks_shared_value this kv id r id2 r2 index part
    consistency :
  live this kv id r →
  indexable this r →
  index ∈ Model.indexes this →
  holds r index part →
  id2 ≠ id →
  live this kv id2 r2 →
  holds r2 index part →
  live this (Model.delete this kv id).2 id2 r2
  ∧ Model.findByIndex this (Model.delete this kv id).2
      index (prop r2 index) consistency
    = Ok None.
Proof.
  intros Hlive [ks Hks]%indexable_keys Hindex Hholds Hne Hlive2 Hholds2.
  assert (truthy (VObj r) = true) as Htruthy by done.
  split.
  - unfold live.
    rewrite (delete_lookup _ _ _ (VObj r) ks _ Hlive Htruthy Hks).
    rewrite decide_False
      by by eapply prefix_not_index_key, has_prefix_primary.
    rewrite decide_False; [done|]. by intros ?%primary_key_inj.
  - rewrite findByIndex_eq. unfold holds in Hholds2. rewrite Hholds2.
    rewrite (delete_lookup _ _ _ (VObj r) ks _ Hlive Htruthy Hks).
    rewrite decide_True; [done|].
    apply (elem_of_index_keys _ _ _ Hks). exists index, part. eauto.
Qed.

Lemma delete_unlinks_shared_value_witness :
  live user (run user kv_empty (creates [("id-1", al); ("id-2", bo)]))
       "id-1" (with_id al "id-1")
  ∧ indexable user (with_id al "id-1")
  ∧ "email" ∈ Model.indexes user
  ∧ holds (with_id al "id-1") "email" (KStr "x@y.com")
  ∧ "id-2" ≠ "id-1"
  ∧ live user (run user kv_empty (creates [("id-1", al); ("id-2", bo)]))
         "id-2" (with_id bo "id-2")
  ∧ holds (with_id bo "id-2") "email" (KStr "x@y.com")
  ∧ (live user
       (Model.delete user
          (run user kv_empty (creates [("id-1", al); ("id-2", bo)]))
          "id-1").2 "id-2" (with_id bo "id-2")
     ∧ Model.findByIndex user
         (Model.delete user
            (run user kv_empty (creates [("id-1", al); ("id-2", bo)]))
            "id-1").2 "email" (prop (with_id bo "id-2") "email") None
       = Ok None).
Proof.
  assert (live user (run user kv_empty (creates [("id-1", al); ("id-2", bo)]))
               "id-1" (with_id al "id-1")) as H1
    by (vm_compute; reflexivity).
  assert (indexable user (with_id al "id-1")) as H2.
  { apply Forall_cons. split; [by eexists | apply Forall_nil_2]. }
  assert ("email" ∈ Model.indexes user) as H3 by (by left).
  assert (holds (with_id al "id-1") "email" (KStr "x@y.com")) as H4
    by (vm_compute; reflexivity).
  assert ("id-2" ≠ "id-1") as H5 by discriminate.
  assert (live user (run user kv_empty (creates [("id-1", al); ("id-2", bo)]))
               "id-2" (with_id bo "id-2")) as H6
    by (vm_compute; reflexivity).
  assert (holds (with_id bo "id-2") "email" (KStr "x@y.com")) as H7
    by (vm_compute; reflexivity).
  split_and!; [exact H1 | exact H2 | exact H3 | exact H4 | exact H5
              | exact H6 | exact H7 | ..];
    apply (delete_unlinks_shared_value user _ "id-1" _ "id-2" _ "email"
             (KStr "x@y.com") None H1 H2 H3 H4 H5 H6 H7).
Defined.

Lemma index_keys_with_id this (value : obj) id :
  "id" ∉ Model.indexes this →
  index_keys this (prop (with_id value id)) = index_keys this (prop value).
Proof.
  intros Hid. unfold index_keys. apply Forall_mapM_ext, Forall_forall.
  intros index Hindex. rewrite prop_with_id_ne; [done|]. by intros ->.
Qed.

(** X8.  [create] followed by [delete] of the identifier drawn gives the
    store back exactly, when the identifier was unused, no index entry
    existed under the indexed values of the input, and [id] is not an
    indexed field. *)
Theorem create_then_delete_restores this kv value id :
  "id" ∉ Model.indexes this →
  indexable this value →
  fresh_create this kv value id →
  Model.delete this (Model.create this kv value id).2 id
  = (Ok (Some (mkCommit true)), kv).
Proof.
  intros Hid Hix [Hfresh Hunique].
  destruct (indexable_keys _ _ Hix) as [ks Hks].
  rewrite delete_eq, create_lookup_primary by done. cbn [truthy].
  change (js_prop (VObj (with_id value id))) with (prop (with_id value id)).
  rewrite index_keys_with_id, Hks by done. f_equal.
  apply map_eq. intros k.
  rewrite lookup_foldl_delete. case_decide as Hk.
  - apply (elem_of_index_keys _ _ _ Hks) in Hk
      as (index & part & Hindex & Hpart & ->).
    symmetry. by apply Hunique.
  - destruct (decide (k = primary_key this id)) as [->|Hne].
    + by rewrite lookup_delete_eq.
    + rewrite lookup_delete_ne by done.
      rewrite (create_lookup _ _ _ _ _ _ Hks).
      by rewrite !decide_False.
Qed.

Lemma create_then_delete_restores_witness :
  ("id" ∉ Model.indexes user)
  ∧ indexable user al
  ∧ fresh_create user kv_empty al "id-1"
  ∧ Model.delete user (Model.create user kv_empty al "id-1").2 "id-1"
    = (Ok (Some (mkCommit true)), kv_empty).
Proof.
  assert ("id" ∉ Model.indexes user) as H1.
  { apply (bool_decide_unpack _). vm_compute. exact I. }
  assert (indexable user al) as H2.
  { apply Forall_cons. split; [by eexists | apply Forall_nil_2]. }
  assert (fresh_create user kv_empty al "id-1") as H3.
  { split; [reflexivity|]. intros index part _ _. apply lookup_empty. }
  split_and!; [exact H1 | exact H2 | exact H3|].
  exact (create_then_delete_restores user kv_empty al "id-1" H1 H2 H3).
Defined.

(** ** update: what it always does *)

(** X9.  [update] is a blind overwrite.  On every store, for every
    identifier and partial value, it commits; afterwards [find] on the
    identifier returns the partial value alone, and every other key of the
    store, the index entries among them, is as before. *)
Theorem update_blind_overwrite this kv id value consistency :
  (Model.update this kv id value).1 = Ok (Some (mkCommit true))
  ∧ Model.find this (Model.update this kv id value).2 id consistency
    = Ok (mkEntryMaybe (primary_key this id) (Some (VObj value)))
  ∧ ∀ k, k ≠ primary_key this id →
      (Model.update this kv id value).2 !! k = kv !! k.
Proof.
  rewrite update_eq. cbn [fst snd]. split_and!; [done| |].
  - by rewrite find_eq, lookup_insert_eq.
  - intros k Hk. by rewrite lookup_insert_ne.
Qed.

(** X10.  An [update] whose partial value lacks a declared indexed field
    leaves a record that [delete] cannot remove: the delete is rejected
    with the store's [TypeError] and the record stays. *)
Theorem partial_update_blocks_delete this kv id (value : obj) index :
  index ∈ Model.indexes this →
  value !! index = None →
  Model.delete this (Model.update this kv id value).2 id
  = (Throw TypeError, (Model.update this kv id value).2).
Proof.
  intros Hindex Hnone.
  apply (delete_rejected_on_missing_field _ _ _ value index); [|done..].
  unfold live. rewrite update_eq. cbn [snd]. apply lookup_insert_eq.
Qed.

Lemma partial_update_blocks_delete_witness :
  "email" ∈ Model.indexes user
  ∧ anon !! "email" = None
  ∧ Model.delete user
      (Model.update user (Model.create user kv_empty al "id-1").2
         "id-1" anon).2 "id-1"
    = (Throw TypeError,
       (Model.update user (Model.create user kv_empty al "id-1").2
          "id-1" anon).2).
Proof.
  assert ("email" ∈ Model.indexes user) as H1 by (by left).
  assert (anon !! "email" = None) as H2 by (vm_compute; reflexivity).
  split_and!; [exact H1 | exact H2|].
  exact (partial_update_blocks_delete user _ "id-1" anon "email" H1 H2).
Defined.

(** ** findAll on any store, and neighbouring collections *)

Lemma has_prefix_head p k :
  has_prefix [p] k = true → ∃ rest, k = p :: rest.
Proof.
  unfold has_prefix. rewrite andb_true_iff, bool_decide_eq_true.
  intros [[rest ->] _]. by exists rest.
Qed.

(** X11.  On any store, [findAll] with no options yields, once each, the
    entries stored under the keys that extend [(key)]: every entry it
    yields is in the store, every stored record [(key, id)] is yielded
    whatever its value, and no index entry of the model is. *)
Theorem findAll_lists_primary_keyspace this kv :
  ∃ es,
    Model.findAll this kv None = Ok es
    ∧ NoDup (entry_key <$> es)
    ∧ (∀ e, e ∈ es → kv !! entry_key e = Some (entry_value e))
    ∧ (∀ id x, kv !! primary_key this id = Some x →
         mkEntry (primary_key this id) x ∈ es)
    ∧ (∀ e index part, e ∈ es → entry_key e ≠ index_key this index part).
Proof.
  destruct (Model.findAll this kv None) as [es|] eqn:Hes;
    [|by rewrite findAll_eq in Hes].
  pose proof (elem_of_findAll _ _ _ Hes) as Hin.
  exists es. split_and!; [done|by eapply NoDup_findAll|..].
  - intros e He. by apply Hin in He as [_ ?].
  - intros id x Hx. apply Hin. cbn [entry_key entry_value].
    split; [apply has_prefix_primary | done].
  - intros e index part [Hk _]%Hin E. rewrite E in Hk.
    by rewrite has_prefix_index in Hk.
Qed.

(** X12.  Collections are told apart by the first key part alone.  A model
    whose key is the name of another model's index family
    ([key_by_field]) gets that model's index entries from [findAll], as if
    they were its records. *)
Theorem findAll_yields_foreign_index_entries this other kv value id
    index part :
  Model.key other = Model.index_name this index →
  indexable this value →
  index ∈ Model.indexes this →
  holds value index part →
  ∃ es,
    Model.findAll other (Model.create this kv value id).2 None = Ok es
    ∧ mkEntry (index_key this index part) (Model.str id) ∈ es.
Proof.
  intros Hkey Hix Hindex Hholds.
  destruct (Model.findAll other (Model.create this kv value id).2 None)
    as [es|] eqn:Hes; [|by rewrite findAll_eq in Hes].
  exists es. split; [done|].
  apply (elem_of_findAll _ _ _ Hes). cbn [entry_key entry_value]. split.
  - unfold has_prefix, index_key. rewrite Hkey.
    rewrite andb_true_iff, negb_true_iff, bool_decide_eq_true,
      bool_decide_eq_false.
    split; [by exists [part] | done].
  - by apply create_lookup_index.
Qed.

Lemma findAll_yields_foreign_index_entries_witness :
  Model.key shadow = Model.index_name user "email"
  ∧ indexable user al
  ∧ "email" ∈ Model.indexes user
  ∧ holds al "email" (KStr "x@y.com")
  ∧ ∃ es,
      Model.findAll shadow (Model.create user kv_empty al "id-1").2 None
      = Ok es
      ∧ mkEntry (index_key user "email" (KStr "x@y.com")) (Model.str "id-1")
          ∈ es.
Proof.
  assert (Model.key shadow = Model.index_name user "email") as H1
    by reflexivity.
  assert (indexable user al) as H2.
  { apply Forall_cons. split; [by eexists | apply Forall_nil_2]. }
  assert ("email" ∈ Model.indexes user) as H3 by (by left).
  assert (holds al "email" (KStr "x@y.com")) as H4
    by (vm_compute; reflexivity).
  split_and!; [exact H1 | exact H2 | exact H3 | exact H4|].
  exact (findAll_yields_foreign_index_entries user shadow kv_empty al "id-1"
           "email" (KStr "x@y.com") H1 H2 H3 H4).
Defined.

Lemma step_frame this kv c k :
  (∀ id, k ≠ primary_key this id) →
  (∀ index part, index ∈ Model.indexes this →
     k ≠ index_key this index part) →
  step this kv c !! k = kv !! k.
Proof.
  intros Hpk Hix. destruct c as [value id|id value|id]; cbn [step].
  - destruct (index_keys this (prop value)) as [ks|] eqn:Hks;
      [|by rewrite create_eq, Hks].
    rewrite (create_lookup _ _ _ _ _ _ Hks).
    rewrite !decide_False; [done|apply Hpk|].
    intros (index & part & ? & _ & ->)%(elem_of_index_keys _ _ _ Hks).
    by eapply Hix.
  - rewrite update_eq. cbn [snd]. by rewrite lookup_insert_ne.
  - destruct (kv !! primary_key this id) as [data_value|] eqn:Hid;
      [|by rewrite delete_eq, Hid].
    destruct (truthy data_value) eqn:Htruthy;
      [|by rewrite delete_eq, Hid, Htruthy].
    destruct (index_keys this (js_prop data_value)) as [ks|] eqn:Hks;
      [|by rewrite delete_eq, Hid, Htruthy, Hks].
    rewrite (delete_lookup _ _ _ _ _ _ Hid Htruthy Hks).
    rewrite !decide_False; [done|apply Hpk|].
    intros (index & part & ? & _ & ->)%(elem_of_index_keys _ _ _ Hks).
    by eapply Hix.
Qed.

(** X13.  Calls on one model leave another collection alone: when the
    other model's key is neither this model's key nor the name of one of
    its index families, [findAll] on the other model yields the same
    entries before and after any sequence of [create], [update] and
    [delete] calls on this one. *)
Theorem other_collection_untouched this other kv calls :
  Model.key other ≠ Model.key this →
  (∀ index, index ∈ Model.indexes this →
     Model.key other ≠ Model.index_name this index) →
  ∃ es es',
    Model.findAll other kv None = Ok es
    ∧ Model.findAll other (run this kv calls) None = Ok es'
    ∧ es' ≡ₚ es.
Proof.
  intros Hkey Hfam.
  assert (∀ k, has_prefix [KStr (Model.key other)] k = true →
            run this kv calls !! k = kv !! k) as Hsame.
  { intros k [rest ->]%has_prefix_head. revert kv.
    induction calls as [|c calls IH]; intros kv; [done|].
    cbn [run foldl]. fold (run this (step this kv c) calls).
    rewrite IH. apply step_frame.
    - intros id [= E _]. done.
    - intros index part Hindex [= E _]. by eapply Hfam. }
  destruct (Model.findAll other kv None) as [es|] eqn:Hes;
    [|by rewrite findAll_eq in Hes].
  destruct (Model.findAll other (run this kv calls) None) as [es'|] eqn:Hes';
    [|by rewrite findAll_eq in Hes'].
  exists es, es'. split_and!; [done..|].
  apply NoDup_Permutation.
  - eapply NoDup_fmap_1, NoDup_findAll, Hes'.
  - eapply NoDup_fmap_1, NoDup_findAll, Hes.
  - intros e.
    rewrite (elem_of_findAll _ _ _ Hes), (elem_of_findAll _ _ _ Hes').
    split; intros [Hk Hlook]; (split; [done|]).
    + by rewrite <- Hsame.
    + by rewrite Hsame.
Qed.

Lemma other_collection_untouched_witness :
  Model.key plain ≠ Model.key user
  ∧ (∀ index, index ∈ Model.indexes user →
       Model.key plain ≠ Model.index_name user index)
  ∧ ∃ es es',
      Model.findAll plain kv_anon None = Ok es
      ∧ Model.findAll plain
          (run user kv_anon
             [Create al "id-2"; Update "id-1" new_email; Delete "id-2"])
          None
        = Ok es'
      ∧ es' ≡ₚ es.
Proof.
  assert (Model.key plain ≠ Model.key user) as H1 by discriminate.
  assert (∀ index, index ∈ Model.indexes user →
            Model.key plain ≠ Model.index_name user index) as H2.
  { intros index ->%list_elem_of_singleton. discriminate. }
  split_and!; [exact H1 | exact H2|].
  exact (other_collection_untouched user plain kv_anon _ H1 H2).
Defined.

(** ** findByIndex on a value that is no key part *)

(** X14.  [findByIndex] asked for a value the store does not take as a key
    part ([undefined], [null]) does not answer "absent": the read of the
    index key is rejected and the call fails with the store's
    [TypeError]. *)
Theorem findByIndex_rejects_non_key this kv index value consistency :
  key_part (VPrim value) = None →
  Model.findByIndex this kv index value consistency = Throw TypeError.
Proof. intros Hnone. by rewrite findByIndex_eq, Hnone. Qed.

Lemma findByIndex_rejects_non_key_witness :
  key_part (VPrim PUndefined) = None
  ∧ Model.findByIndex user (Model.create user kv_empty al "id-1").2
      "email" PUndefined None
    = Throw TypeError.
Proof.
  assert (key_part (VPrim PUndefined) = None) as H by reflexivity.
  split; [exact H|].
  exact (findByIndex_rejects_non_key user _ "email" PUndefined None H).
Defined.

(** ** Indexing the field [id] *)

(** X15.  When [id] is a declared indexed field, [create] keys the index
    entry on the [id] the input carries while the stored record gets the
    generated identifier, and [delete] keys its index deletion on the
    stored one.  So after [create] and [delete] the entry under the
    input's own [id] is left behind: [findByIndex] on it returns an entry
    for the deleted record's key with an absent value. *)
Theorem indexed_id_left_dangling this kv value id uid consistency :
  "id" ∈ Model.indexes this →
  indexable this value →
  value !! "id" = Some (PStr uid) →
  uid ≠ id →
  id ≠ EmptyString →
  (Model.delete this (Model.create this kv value id).2 id).1
  = Ok (Some (mkCommit true))
  ∧ Model.findByIndex this
      (Model.delete this (Model.create this kv value id).2 id).2
      "id" (PStr uid) consistency
    = Ok (Some (mkEntryMaybe (primary_key this id) None)).
Proof.
  intros Hindex Hix Huid Hne Hid.
  pose proof (create_lookup_primary this kv value id Hix) as Hlive.
  destruct (indexable_keys _ _ (indexable_with_id _ _ id Hix)) as [ks Hks].
  assert (truthy (VObj (with_id value id)) = true) as Htruthy by done.
  pose proof (delete_lookup this (Model.create this kv value id).2 id
                (VObj (with_id value id)) ks) as Hlook.
  split.
  - rewrite delete_eq, Hlive. cbn [truthy].
    change (js_prop (VObj (with_id value id)))
      with (prop (with_id value id)).
    by rewrite Hks.
  - rewrite (findByIndex_pointer _ _ _ _ (KStr uid) id); [|done| |done].
    + rewrite (Hlook _ Hlive Htruthy Hks).
      case_decide; [done|]. by rewrite decide_True.
    + rewrite (Hlook _ Hlive Htruthy Hks).
      rewrite decide_False.
      * rewrite decide_False by apply index_key_ne_primary.
        apply create_lookup_index; [done..|].
        unfold holds, prop. by rewrite Huid.
      * intros (index & part & _ & Hpart & E)%(elem_of_index_keys _ _ _ Hks).
        apply index_key_inj in E as [<- <-].
        unfold prop, with_id in Hpart. rewrite lookup_insert_eq in Hpart.
        injection Hpart as ->. done.
Qed.

Lemma indexed_id_left_dangling_witness :
  "id" ∈ Model.indexes keyed
  ∧ indexable keyed own_id
  ∧ own_id !! "id" = Some (PStr "u-1")
  ∧ "u-1" ≠ "id-1"
  ∧ "id-1" ≠ EmptyString
  ∧ (Model.delete keyed (Model.create keyed kv_empty own_id "id-1").2
       "id-1").1
    = Ok (Some (mkCommit true))
  ∧ Model.findByIndex keyed
      (Model.delete keyed (Model.create keyed kv_empty own_id "id-1").2
         "id-1").2
      "id" (PStr "u-1") None
    = Ok (Some (mkEntryMaybe (primary_key keyed "id-1") None)).
Proof.
  assert ("id" ∈ Model.indexes keyed) as H1 by (by left).
  assert (indexable keyed own_id) as H2.
  { apply Forall_cons. split; [by eexists | apply Forall_nil_2]. }
  assert (own_id !! "id" = Some (PStr "u-1")) as H3
    by (vm_compute; reflexivity).
  assert ("u-1" ≠ "id-1") as H4 by discriminate.
  assert ("id-1" ≠ EmptyString) as H5 by discriminate.
  split_and!; [exact H1 | exact H2 | exact H3 | exact H4 | exact H5 | ..];
    apply (indexed_id_left_dangling keyed kv_empty own_id "id-1" "u-1" None
             H1 H2 H3 H4 H5).
Defined.

(** ** A model declared without indexes *)

(** X16.  A model built by the factory without an [indexes] argument has
    no indexed field: [create] always commits and writes the primary
    entry alone, and [delete] either removes the primary entry alone or,
    when nothing truthy is stored there, does nothing; neither is ever
    rejected. *)
Theorem model_without_indexes key kv value id :
  Model.create (model key None) kv value id
  = (Ok (mkCommit true),
     <[primary_key (model key None) id := VObj (with_id value id)]> kv)
  ∧ Model.delete (model key None) kv id
    = match kv !! primary_key (model key None) id with
      | Some data_value =>
          if truthy data_value
          then (Ok (Some (mkCommit true)),
                base.delete (primary_key (model key None) id) kv)
          else (Ok None, kv)
      | None => (Ok None, kv)
      end.
Proof.
  split.
  - by rewrite create_eq.
  - rewrite delete_eq.
    destruct (kv !! primary_key (model key None) id) as [data_value|];
      [|done].
    by destruct (truthy data_value).
Qed.

Lemma findByIndex_live_witness :
  index_complete user (Model.create user kv_empty al "id-1").2
  ∧ live user (Model.create user kv_empty al "id-1").2 "id-1"
         (with_id al "id-1")
  ∧ "email" ∈ Model.indexes user
  ∧ prop (with_id al "id-1") "email" = PStr "x@y.com"
  ∧ key_part (VPrim (PStr "x@y.com")) = Some (KStr "x@y.com")
  ∧ "id-1" ≠ EmptyString
  ∧ Model.findByIndex user (Model.create user kv_empty al "id-1").2
      "email" (PStr "x@y.com") None
    = Ok (Some (mkEntryMaybe (primary_key user "id-1")
                             (Some (VObj (with_id al "id-1"))))).
Proof.
  assert (index_complete user (Model.create user kv_empty al "id-1").2)
    as H1.
  { apply create_preserves_index_consistent.
    - apply (bool_decide_unpack _). vm_compute. exact I.
    - apply index_consistent_empty.
    - split; [reflexivity|]. intros index part _ _. apply lookup_empty. }
  assert (live user (Model.create user kv_empty al "id-1").2 "id-1"
               (with_id al "id-1")) as H2 by (vm_compute; reflexivity).
  assert ("email" ∈ Model.indexes user) as H3 by (by left).
  assert (prop (with_id al "id-1") "email" = PStr "x@y.com") as H4
    by (vm_compute; reflexivity).
  assert (key_part (VPrim (PStr "x@y.com")) = Some (KStr "x@y.com")) as H5
    by reflexivity.
  assert ("id-1" ≠ EmptyString) as H6 by discriminate.
  split_and!; [exact H1 | exact H2 | exact H3 | exact H4 | exact H5
              | exact H6|].
  exact (findByIndex_live user _ "id-1" _ "email" _ _ None
           H1 H2 H3 H4 H5 H6).
Defined.

(** ** One call, one entry of findAll *)

(** X18.  A [create] that commits under an unused identifier adds exactly
    one entry to what [findAll] yields, the new record's, and changes
    none of the others. *)
Theorem create_adds_one_entry this kv value id :
  indexable this value →
  kv !! primary_key this id = None →
  ∃ es es',
    Model.findAll this kv None = Ok es
    ∧ Model.findAll this (Model.create this kv value id).2 None = Ok es'
    ∧ es' ≡ₚ record_entry this (id, value) :: es.
Proof.
  intros Hix Hfresh. destruct (indexable_keys _ _ Hix) as [ks Hks].
  destruct (Model.findAll this kv None) as [es|] eqn:Hes;
    [|by rewrite findAll_eq in Hes].
  destruct (Model.findAll this (Model.create this kv value id).2 None)
    as [es'|] eqn:Hes'; [|by rewrite findAll_eq in Hes'].
  pose proof (elem_of_findAll _ _ _ Hes) as Hin.
  pose proof (elem_of_findAll _ _ _ Hes') as Hin'.
  exists es, es'. split_and!; [done..|].
  apply NoDup_Permutation.
  - eapply NoDup_fmap_1, NoDup_findAll, Hes'.
  - apply NoDup_cons. split.
    + intros [_ Hlook]%Hin. cbn [record_entry entry_key entry_value] in Hlook.
      cbn [fst] in Hlook. by rewrite Hfresh in Hlook.
    + eapply NoDup_fmap_1, NoDup_findAll, Hes.
  - intros e. rewrite elem_of_cons, Hin, Hin'.
    assert (has_prefix [KStr (Model.key this)] (entry_key e) = true →
            (Model.create this kv value id).2 !! entry_key e
            = if decide (entry_key e = primary_key this id)
              then Some (VObj (with_id value id))
              else kv !! entry_key e) as Hlook.
    { intros Hk. rewrite (create_lookup _ _ _ _ _ _ Hks).
      by rewrite decide_False by by eapply prefix_not_index_key. }
    split.
    + intros [Hk Hval]. rewrite (Hlook Hk) in Hval.
      case_decide as Hkey; [left | by right].
      destruct e as [k x]. cbn in *. by simplify_eq.
    + intros [->|[Hk Hval]].
      * split; [apply has_prefix_primary|].
        apply (create_lookup_primary this kv value id Hix).
      * split; [done|]. rewrite (Hlook Hk).
        case_decide as Hkey; [|done].
        rewrite Hkey, Hfresh in Hval. done.
Qed.

Lemma create_adds_one_entry_witness :
  indexable user cy
  ∧ (Model.create user kv_empty al "id-1").2 !! primary_key user "id-2"
    = None
  ∧ ∃ es es',
      Model.findAll user (Model.create user kv_empty al "id-1").2 None
      = Ok es
      ∧ Model.findAll user
          (Model.create user (Model.create user kv_empty al "id-1").2
             cy "id-2").2 None
        = Ok es'
      ∧ es' ≡ₚ record_entry user ("id-2", cy) :: es.
Proof.
  assert (indexable user cy) as H1.
  { apply Forall_cons. split; [by eexists | apply Forall_nil_2]. }
  assert ((Model.create user kv_empty al "id-1").2
            !! primary_key user "id-2" = None) as H2
    by (vm_compute; reflexivity).
  split_and!; [exact H1 | exact H2|].
  exact (create_adds_one_entry user _ cy "id-2" H1 H2).
Defined.

(** X19.  A [delete] of a live record whose indexed fields hold key parts
    takes exactly that record's entry out of what [findAll] yields and
    changes none of the others. *)
Theorem delete_removes_one_entry this kv id r :
  live this kv id r →
  indexable this r →
  ∃ es es',
    Model.findAll this kv None = Ok es
    ∧ Model.findAll this (Model.delete this kv id).2 None = Ok es'
    ∧ es ≡ₚ mkEntry (primary_key this id) (VObj r) :: es'.
Proof.
  intros Hlive Hix. destruct (indexable_keys _ _ Hix) as [ks Hks].
  assert (truthy (VObj r) = true) as Htruthy by done.
  destruct (Model.findAll this kv None) as [es|] eqn:Hes;
    [|by rewrite findAll_eq in Hes].
  destruct (Model.findAll this (Model.delete this kv id).2 None)
    as [es'|] eqn:Hes'; [|by rewrite findAll_eq in Hes'].
  pose proof (elem_of_findAll _ _ _ Hes) as Hin.
  pose proof (elem_of_findAll _ _ _ Hes') as Hin'.
  assert (∀ k, has_prefix [KStr (Model.key this)] k = true →
            (Model.delete this kv id).2 !! k
            = if decide (k = primary_key this id) then None else kv !! k)
    as Hlook.
  { intros k Hk.
    rewrite (delete_lookup _ _ _ (VObj r) ks _ Hlive Htruthy Hks).
    by rewrite decide_False by by eapply prefix_not_index_key. }
  exists es, es'. split_and!; [done..|].
  apply NoDup_Permutation.
  - eapply NoDup_fmap_1, NoDup_findAll, Hes.
  - apply NoDup_cons. split.
    + intros [Hk Hval]%Hin'. cbn [entry_key entry_value] in Hk, Hval.
      rewrite (Hlook _ Hk), decide_True in Hval; done.
    + eapply NoDup_fmap_1, NoDup_findAll, Hes'.
  - intros e. rewrite elem_of_cons, Hin, Hin'. split.
    + intros [Hk Hval].
      destruct (decide (entry_key e = primary_key this id)) as [Hkey|Hkey].
      * left. destruct e as [k x]. cbn in *. subst k.
        unfold live in Hlive. by simplify_eq.
      * right. split; [done|]. by rewrite (Hlook _ Hk), decide_False.
    + intros [->|[Hk Hval]].
      * split; [apply has_prefix_primary | exact Hlive].
      * split; [done|]. rewrite (Hlook _ Hk) in Hval.
        by case_decide.
Qed.

Lemma delete_removes_one_entry_witness :
  live user (Model.create user kv_empty al "id-1").2 "id-1"
       (with_id al "id-1")
  ∧ indexable user (with_id al "id-1")
  ∧ ∃ es es',
      Model.findAll user (Model.create user kv_empty al "id-1").2 None
      = Ok es
      ∧ Model.findAll user
          (Model.delete user (Model.create user kv_empty al "id-1").2
             "id-1").2 None
        = Ok es'
      ∧ es ≡ₚ mkEntry (primary_key user "id-1") (VObj (with_id al "id-1"))
              :: es'.
Proof.
  assert (live user (Model.create user kv_empty al "id-1").2 "id-1"
               (with_id al "id-1")) as H1 by (vm_compute; reflexivity).
  assert (indexable user (with_id al "id-1")) as H2.
  { apply Forall_cons. split; [by eexists | apply Forall_nil_2]. }
  split_and!; [exact H1 | exact H2|].
  exact (delete_removes_one_entry user _ "id-1" _ H1 H2).
Defined.
